(** * espiresso: ultrasonic ranger and PID controller

    A shallow embedding of [trunk/gaggia/ranger.cpp] and of the controller
    declared in [gaggia/pid.h].

    - A C++ [double] is a binary64 number: Rocq's primitive [float], whose
      operations round to nearest, ties to even, exactly as the hardware does.
    - An [unsigned] is a [Z] in [0, 2^32) and [++] wraps around.
    - The hardware (clock, sleep, trigger pin, echo pin) lives outside the
      repository.  It is a [World]: two oracles that answer [getClock()] and
      [m_echo.poll()] in the order they are asked, and the trace of the
      actions performed on the pins and on the sleep primitive.
    - Code that threads the object and the hardware is written in a small
      state monad. *)

From Stdlib Require Import ZArith Bool List Lia Floats.
Import ListNotations.

Set Warnings "-inexact-float".

Local Open Scope Z_scope.

(** ** C++ scalar types *)

Definition double := float.

(** [a > b] on doubles is [b < a]; both are false when a NaN is involved. *)
Definition gtb (a b : double) : bool := PrimFloat.ltb b a.

(** [fabs] of <math.h>. *)
Definition fabs (x : double) : double := PrimFloat.abs x.

(** [unsigned]: 32 bits on the targets the project builds for. *)
Definition UINT_MOD : Z := 2 ^ 32.

(** [x++] on an [unsigned]. *)
Definition uincr (x : Z) : Z := (x + 1) mod UINT_MOD.

(** ** A small state monad *)

Definition ST (S A : Type) : Type := S -> A * S.

Definition ret {S A : Type} (a : A) : ST S A := fun s => (a, s).

Definition bind {S A B : Type} (m : ST S A) (k : A -> ST S B) : ST S B :=
  fun s => let (a, s') := m s in k a s'.

Definition get {S : Type} : ST S S := fun s => (s, s).

Definition modify {S : Type} (f : S -> S) : ST S unit := fun s => (tt, f s).

Declare Scope st_scope.
Delimit Scope st_scope with st.
Notation "x <- m ;; k" := (bind m (fun x => k))
  (at level 61, m at next level, right associativity) : st_scope.
Notation "m ;;; k" := (bind m (fun _ => k))
  (at level 61, right associativity) : st_scope.

(** ** The hardware *)

(** [GPIOPin::Both] and its siblings. *)
Inductive Edge : Type := EdgeNone | Rising | Falling | Both.

(** What the driver does to the outside world, in program order.  The
    argument of a sleep is recorded as the call site writes it: a [double]
    expression in [measureRange], the integer literal 50 in [initialise]. *)
Inductive Event : Type :=
| TriggerSetOutput (output : bool)
| TriggerSetState (state : bool)
| EchoSetOutput (output : bool)
| EchoSetEdgeTrigger (edge : Edge)
| DelayMsD (ms : double)
| DelayMsI (ms : Z)
| TriggerUsPulse (state : bool) (us : Z)
| EchoPoll (timeout : Z).

Record World : Type := mkWorld {
  clockAt : nat -> double;   (* answer of the n-th call of getClock() *)
  nclock  : nat;             (* number of calls of getClock() so far *)
  echoAt  : nat -> bool;     (* answer of the n-th call of m_echo.poll() *)
  necho   : nat;             (* number of calls of m_echo.poll() so far *)
  trace   : list Event       (* actions so far, oldest first *)
}.

Definition emit (e : Event) (w : World) : World :=
  mkWorld (clockAt w) (nclock w) (echoAt w) (necho w) (trace w ++ [e]).

(** ** The Ranger object *)

Record Ranger : Type := mkRanger {
  m_range       : double;
  m_count       : Z;
  m_run         : bool;
  m_timeLastRun : double
}.

Record Sys : Type := mkSys { obj : Ranger; hw : World }.

Definition set_timeLastRun (t : double) (s : Sys) : Sys :=
  mkSys (mkRanger (m_range (obj s)) (m_count (obj s)) (m_run (obj s)) t) (hw s).

Definition set_run (b : bool) (s : Sys) : Sys :=
  mkSys (mkRanger (m_range (obj s)) (m_count (obj s)) b (m_timeLastRun (obj s)))
        (hw s).

Definition publish (range : double) (count : Z) (s : Sys) : Sys :=
  mkSys (mkRanger range count (m_run (obj s)) (m_timeLastRun (obj s))) (hw s).

(** *** The primitives of timing.h and of the pins *)

Definition getClock : ST Sys double := fun s =>
  let w := hw s in
  (clockAt w (nclock w),
   mkSys (obj s) (mkWorld (clockAt w) (S (nclock w)) (echoAt w) (necho w) (trace w))).

Definition act (e : Event) : ST Sys unit := fun s => (tt, mkSys (obj s) (emit e (hw s))).

Definition echo_poll (timeout : Z) : ST Sys bool := fun s =>
  let w := hw s in
  (echoAt w (necho w),
   mkSys (obj s)
         (mkWorld (clockAt w) (nclock w) (echoAt w) (S (necho w))
                  (trace w ++ [EchoPoll timeout]))).

Local Open Scope st_scope.

(** *** [Ranger::measureRange] *)

Definition minimumInterval : double := 0.2%float.
Definition timeout : Z := 60.
Definition speedOfSound : double := 340.27%float.

Definition measureRange : ST Sys double :=
  now <- getClock ;;
  s <- get ;;
  let interval := (now - m_timeLastRun (obj s))%float in
  (if PrimFloat.ltb interval minimumInterval
   then act (DelayMsD (1000.0 * (minimumInterval - interval))%float)
   else ret tt) ;;;
  t <- getClock ;;
  modify (set_timeLastRun t) ;;;
  act (TriggerUsPulse true 10) ;;;
  up <- echo_poll timeout ;;
  er <- (if up then
           rise <- getClock ;;
           down <- echo_poll timeout ;;
           if down then
             fall <- getClock ;;
             ret ((fall - rise)%float, true)
           else ret (0.0%float, false)
         else ret (0.0%float, false)) ;;
  let elapsed := fst er in
  let response := snd er in
  let distance := (elapsed * speedOfSound / 2.0)%float in
  if response then ret distance else ret 0.0%float.

(** *** [Ranger::worker] *)

(** The variables declared at the top of [worker], before the loop.  The
    loop body declares a second [range] (line 92) that hides this one from
    there to the end of the body; the assignment [oldRange = range] (line
    89) comes before that declaration and so reads this outer variable. *)
Record Locals : Type := mkLocals {
  range     : double;
  oldRange  : double;
  firstTime : bool
}.

Definition worker_locals : Locals := mkLocals 0.0%float 0.0%float true.

(** The test of line 95-97. *)
Definition is_outlier (firstTime : bool) (oldRange range : double) : bool :=
  (negb firstTime && gtb (fabs (range - oldRange)%float) 0.01%float)
  || PrimFloat.ltb range 0.001%float.

Definition k : double := 0.5%float.

(** Lines 108-115: what the locked block stores in [m_range]. *)
Definition filtered (firstTime : bool) (m_range range : double) : double :=
  let m := if firstTime then range else m_range in
  (m + k * (range - m))%float.

(** One turn of the [while] loop (lines 89-117). *)
Definition worker_body (l : Locals) : ST Sys Locals :=
  let oldRange := range l in
  inner <- measureRange ;;
  let outlier := is_outlier (firstTime l) oldRange inner in
  inner <- (if outlier then measureRange else ret inner) ;;
  s <- get ;;
  modify (publish (filtered (firstTime l) (m_range (obj s)) inner)
                  (uincr (m_count (obj s)))) ;;;
  ret (mkLocals (range l) oldRange false).

(** [while (m_run) { ... }], for at most [fuel] turns. *)
Fixpoint worker_loop (fuel : nat) (l : Locals) : ST Sys Locals :=
  match fuel with
  | O => ret l
  | S fuel' =>
      s <- get ;;
      if m_run (obj s)
      then l' <- worker_body l ;; worker_loop fuel' l'
      else ret l
  end.

(** [Ranger::worker]: the locals, then the loop. *)
Definition worker (fuel : nat) : ST Sys Locals := worker_loop fuel worker_locals.

(** *** Constructor, destructor and accessors *)

Definition Ranger_new (w : World) : Sys :=
  let s0 := mkSys (mkRanger 0.0%float 0 true 0.0%float) w in
  snd ((act (TriggerSetOutput true) ;;;
        act (TriggerSetState false) ;;;
        act (EchoSetOutput false) ;;;
        act (EchoSetEdgeTrigger Both) ;;;
        t <- getClock ;;
        modify (set_timeLastRun t)) s0).

Definition getRange : ST Sys double := s <- get ;; ret (m_range (obj s)).

Definition getCount : ST Sys Z := s <- get ;; ret (m_count (obj s)).

Definition ready : ST Sys bool := s <- get ;; ret (0 <? m_count (obj s)).

(** [~Ranger]: ask the worker to stop; [join] then waits for the turn in
    flight to end. *)
Definition Ranger_delete : ST Sys unit := modify (set_run false).

(** ** Two threads

    The worker thread owns [Locals]; both threads share [Sys].  Every access
    of the caller to the shared fields takes the mutex, and so does the
    worker's commit: between two accesses of the caller the worker completes
    some number of turns of its loop.  A schedule gives that number for each
    access of the caller, in order. *)

Record Threads : Type := mkThreads { wl : Locals; shared : Sys }.

Definition worker_turns (n : nat) (t : Threads) : Threads :=
  let (l, s) := worker_loop n (wl t) (shared t) in mkThreads l s.

Definition start (w : World) : Threads := mkThreads worker_locals (Ranger_new w).

(** The caller's side of [initialise]: the answer, the sleeps it made (the
    argument of each [delayms]), and the number of calls of [ready()]. *)
Record InitRun : Type := mkInitRun {
  answer : bool;
  sleeps : list Z;
  polls  : nat;
  final  : Threads
}.

(** [for ( int i=0; (i<10) && !ready(); i++ ) delayms( 50 );] with
    [left = 10 - i]; [j] counts the calls of [ready()] made so far. *)
Fixpoint initialise_for (left : nat) (sched : nat -> nat) (j : nat)
         (zs : list Z) (t : Threads) : nat * list Z * Threads :=
  match left with
  | O => (j, zs, t)
  | S left' =>
      let t1 := worker_turns (sched j) t in
      if negb (fst (ready (shared t1)))
      then initialise_for left' sched (S j) (zs ++ [50]) t1
      else (S j, zs, t1)
  end.

(** [Ranger::initialise]: the loop, then [return ready();]. *)
Definition initialise (sched : nat -> nat) (t : Threads) : InitRun :=
  let '(j, zs, t1) := initialise_for 10 sched 0 [] t in
  let t2 := worker_turns (sched j) t1 in
  mkInitRun (fst (ready (shared t2))) zs (S j) t2.

(** *** The destructor, while the worker runs

    [~Ranger] runs in the caller's thread.  Its store [m_run = false] (line
    35), taken as one step, lands either while the worker is at the test of
    its loop (line 88), or between two statements of a turn that has passed
    the test; [join] (line 38) then waits until the worker has left the
    loop. *)

(** The store lands while the worker is at the test of line 88: [m_run] is
    false, the rest is as it was. *)
Definition stopped (t : Threads) : Threads :=
  mkThreads (wl t) (snd (Ranger_delete (shared t))).

(** The store lands during a turn.  The places between the statements of a
    turn are numbered in program order: 0 to 8 in the first call of
    [measureRange], 9 before the test of line 95, 10 to 18 in the second
    call, 19 before the locked block, 20 after it.  [land at_ i] stands at
    place [i]; the store is made at the first place the worker passes from
    place [at_] on.  Storing [false] a second time changes nothing, so
    [land] need not remember that the store has been made. *)
Definition land (at_ i : nat) : ST Sys unit :=
  if (at_ <=? i)%nat then Ranger_delete else ret tt.

(** [measureRange] (lines 123-176) with the places between its statements,
    numbered from [b]. *)
Definition measureRange_landing (at_ b : nat) : ST Sys double :=
  land at_ b ;;;
  now <- getClock ;;
  s <- get ;;
  let interval := (now - m_timeLastRun (obj s))%float in
  land at_ (b + 1) ;;;
  (if PrimFloat.ltb interval minimumInterval
   then act (DelayMsD (1000.0 * (minimumInterval - interval))%float)
   else ret tt) ;;;
  land at_ (b + 2) ;;;
  t <- getClock ;;
  modify (set_timeLastRun t) ;;;
  land at_ (b + 3) ;;;
  act (TriggerUsPulse true 10) ;;;
  land at_ (b + 4) ;;;
  up <- echo_poll timeout ;;
  er <- (if up then
           land at_ (b + 5) ;;;
           rise <- getClock ;;
           land at_ (b + 6) ;;;
           down <- echo_poll timeout ;;
           if down then
             land at_ (b + 7) ;;;
             fall <- getClock ;;
             ret ((fall - rise)%float, true)
           else ret (0.0%float, false)
         else ret (0.0%float, false)) ;;
  land at_ (b + 8) ;;;
  let elapsed := fst er in
  let response := snd er in
  let distance := (elapsed * speedOfSound / 2.0)%float in
  if response then ret distance else ret 0.0%float.

(** One turn of the loop (lines 89-117) with its places. *)
Definition worker_body_landing (at_ : nat) (l : Locals) : ST Sys Locals :=
  let oldRange := range l in
  inner <- measureRange_landing at_ 0 ;;
  land at_ 9 ;;;
  let outlier := is_outlier (firstTime l) oldRange inner in
  inner <- (if outlier then measureRange_landing at_ 10 else ret inner) ;;
  land at_ 19 ;;;
  s <- get ;;
  modify (publish (filtered (firstTime l) (m_range (obj s)) inner)
                  (uincr (m_count (obj s)))) ;;;
  land at_ 20 ;;;
  ret (mkLocals (range l) oldRange false).

(** The threads after the turn during which the store has landed. *)
Definition turn_in_flight (at_ : nat) (t : Threads) : Threads :=
  let (l, s) := worker_body_landing at_ (wl t) (shared t) in mkThreads l s.

(** *** What a run shows *)

(** The interval that [measureRange] computes on entry (line 136). *)
Definition interval_at (s : Sys) : double :=
  (clockAt (hw s) (nclock (hw s)) - m_timeLastRun (obj s))%float.

(** The reading that the turn starting in [s] hands to the filter: the
    retry when the raw reading was classified as an outlier, the raw
    reading otherwise. *)
Definition committed (l : Locals) (s : Sys) : double :=
  let m1 := measureRange s in
  if is_outlier (firstTime l) (range l) (fst m1)
  then fst (measureRange (snd m1))
  else fst m1.

Definition is_pulse (e : Event) : bool :=
  match e with TriggerUsPulse _ _ => true | _ => false end.

(** Number of trigger pulses sent so far: one per call of [measureRange]. *)
Definition pulses (w : World) : nat := length (List.filter is_pulse (trace w)).

(** Turns of the worker completed before the caller's [j]-th access
    returns, under schedule [sched]. *)
Fixpoint turns_before (sched : nat -> nat) (j : nat) : nat :=
  match j with
  | O => O
  | S j' => (turns_before sched j' + sched j')%nat
  end.

(** The actions of one measurement, as the trace shows them: at most one
    sleep, the 10 us pulse, the wait for the rising edge and possibly the
    wait for the falling edge, 60 ms each. *)
Definition is_measurement (es : list Event) : bool :=
  let body es :=
    match es with
    | [TriggerUsPulse true 10; EchoPoll 60] => true
    | [TriggerUsPulse true 10; EchoPoll 60; EchoPoll 60] => true
    | _ => false
    end in
  match es with
  | DelayMsD _ :: es' => body es'
  | _ => body es
  end.

(** A world in which no echo ever comes back. *)
Definition silent_world : World :=
  mkWorld (fun _ => 0.0%float) 0 (fun _ => false) 0 [].

(** A world in which every trigger is answered by an echo pulse of the same
    width, 2^-7 s, one measurement per second.  The first reading of the
    clock is the constructor's; each measurement then reads it four times:
    on entry, at the trigger, at the rising and at the falling edge. *)
Definition steady_world : World :=
  mkWorld (fun n => nth n [0.0; 1.0; 1.0; 1.0; 1.0078125;
                           2.0; 2.0; 2.0; 2.0078125;
                           3.0; 3.0; 3.0; 3.0078125]%float 4.0%float)
          0 (fun _ => true) 0 [].

(** A world whose clock restarts with every measurement, so that the
    elapsed times are the plain readings 0.0125 s and, for the retry of the
    second turn, the next double after it. *)
Definition restarting_world : World :=
  mkWorld (fun n => nth n [0.0; 0.0; 0.0; 0.0; 0.0125;
                           0.0; 0.0; 0.0; 0.0125;
                           0.0; 0.0; 0.0; 0.012500000000000002]%float 0.0%float)
          0 (fun _ => true) 0 [].

(** A world whose clock answers NaN once, at the falling edge of the first
    measurement, and is steady afterwards. *)
Definition glitch_world : World :=
  mkWorld (fun n => nth n [0.0; 1.0; 1.0; 1.0; nan;
                           2.0; 2.0; 2.0; 2.0078125;
                           3.0; 3.0; 3.0; 3.0078125]%float 4.0%float)
          0 (fun _ => true) 0 [].

(** The classification as the specification words it: a jump of more than
    0.01 m away from the raw reading of the turn before, or a reading under
    the 0.001 m floor. *)
Definition outlier_spec (firstTime : bool) (previousRaw raw : double) : bool :=
  (negb firstTime && gtb (fabs (raw - previousRaw)%float) 0.01%float)
  || PrimFloat.ltb raw 0.001%float.

(** ** PIDControl (gaggia/pid.h) *)

Record PIDControl : Type := mkPIDControl {
  m_dState : double;   (* last position input *)
  m_iState : double;   (* integrator state *)
  m_iMax   : double;   (* maximum allowable integrator state *)
  m_iMin   : double;   (* minimum allowable integrator state *)
  m_iGain  : double;   (* integral gain *)
  m_pGain  : double;   (* proportional gain *)
  m_dGain  : double    (* derivative gain *)
}.

(** Modelled from the spec: the body of [PIDControl::setPIDGains] (pid.cpp
    is not among the sources).  It replaces the three gains. *)
Definition setPIDGains (pGain iGain dGain : double) : ST PIDControl unit :=
  modify (fun c => mkPIDControl (m_dState c) (m_iState c) (m_iMax c) (m_iMin c)
                                iGain pGain dGain).

(** Modelled from the spec: the body of [PIDControl::setIntegratorLimits]
    (pid.cpp is not among the sources).  It sets the two clamp bounds. *)
Definition setIntegratorLimits (iMin iMax : double) : ST PIDControl unit :=
  modify (fun c => mkPIDControl (m_dState c) (m_iState c) iMax iMin
                                (m_iGain c) (m_pGain c) (m_dGain c)).

(** Modelled from the spec: the clamp of the integrator to [[iMin, iMax]],
    written with the two comparisons a C++ clamp makes. *)
Definition clamp (lo hi x : double) : double :=
  if gtb x hi then hi else if PrimFloat.ltb x lo then lo else x.

(** Modelled from the spec: the body of [PIDControl::update] (pid.cpp is not
    among the sources).  Proportional term [pGain * error]; the error scaled
    by [iGain] is accumulated into [iState], which is then clamped; the
    derivative term is [-dGain * (position - dState)]; [dState] becomes
    [position]; the output is the sum of the three terms. *)
Definition update (error position : double) : ST PIDControl double :=
  c <- get ;;
  let pTerm := (m_pGain c * error)%float in
  let iState := clamp (m_iMin c) (m_iMax c) (m_iState c + m_iGain c * error)%float in
  let dTerm := (- m_dGain c * (position - m_dState c))%float in
  modify (fun c => mkPIDControl position iState (m_iMax c) (m_iMin c)
                                (m_iGain c) (m_pGain c) (m_dGain c)) ;;;
  ret (pTerm + iState + dTerm)%float.

(** ** Binary64 numbers, as specified

    [Prim2SF] maps a [float] to the [spec_float] it denotes; the axioms of
    the standard library say that each primitive operation computes what
    SpecFloat specifies.  The definitions below give finite numbers a value
    and say when a result is a rounding of an exact value. *)

(** Zero or finite: neither an infinity nor NaN. *)
Definition SFfinite (x : spec_float) : bool :=
  match x with S754_zero _ | S754_finite _ _ _ => true | _ => false end.

(** NaN. *)
Definition SFnan (x : spec_float) : bool :=
  match x with S754_nan => true | _ => false end.

(** Number of binary digits of a mantissa. *)
Definition dg (m : positive) : Z := Zpos (digits2_pos m).

(** The magnitude [m * 2^e] in units of [2^-1127], small enough that the
    half of every binary64 number is a whole number of units. *)
Definition mag (m : positive) (e : Z) : Z := Zpos m * 2 ^ (e + 1127).

(** The signed value of a finite number, in the same units. *)
Definition SFvalue (x : spec_float) : Z :=
  match x with
  | S754_finite s m e => cond_Zopp s (mag m e)
  | _ => 0
  end.

(** [mrs] is [N] shifted right by [j] digits; when nothing was lost, the
    round and sticky bits are clear. *)
Definition shifted (N j : Z) (mrs : shr_record) : Prop :=
  shr_m mrs = N / 2 ^ j
  /\ (N mod 2 ^ j = 0 -> shr_r mrs = false /\ shr_s mrs = false).

(** [fexp prec emax] at binary64: the exponent of the last digit kept of a
    number below [2^e]. *)
Definition fexp64 (e : Z) : Z := Z.max (e - 53) (-1074).

(** [canonical_mantissa prec emax m e], as a proposition. *)
Definition canon (m : positive) (e : Z) : Prop := fexp64 (dg m + e) = e.

(** [a <= r] and [r <= a] for a result [r] that may be infinite. *)
Definition at_least (a : Z) (r : spec_float) : Prop :=
  match r with
  | S754_infinity s => s = false
  | S754_nan => False
  | _ => a <= SFvalue r
  end.

Definition at_most (a : Z) (r : spec_float) : Prop :=
  match r with
  | S754_infinity s => s = true
  | S754_nan => False
  | _ => SFvalue r <= a
  end.

(** [a] is the value of a finite binary64 number. *)
Definition representable (a : Z) : Prop :=
  exists x, valid_binary x = true /\ SFfinite x = true /\ SFvalue x = a.

(** [r] is a faithful rounding of the exact value [X]: no binary64 number
    lies strictly between [X] and [r]. *)
Definition rounds (X : Z) (r : spec_float) : Prop :=
  valid_binary r = true
  /\ (forall a, representable a -> a <= X -> at_least a r)
  /\ (forall a, representable a -> X <= a -> at_most a r).

(** The same for magnitudes, the sign [s] being known. *)
Definition rounds_mag (s : bool) (X : Z) (r : spec_float) : Prop :=
  match r with
  | S754_zero s' =>
      s' = s /\ forall ma ea, bounded prec emax ma ea = true -> X < mag ma ea
  | S754_finite s' mf ef =>
      s' = s /\ bounded prec emax mf ef = true
      /\ (forall ma ea, bounded prec emax ma ea = true ->
                        mag ma ea <= X -> mag ma ea <= mag mf ef)
      /\ (forall ma ea, bounded prec emax ma ea = true ->
                        X <= mag ma ea -> mag mf ef <= mag ma ea)
  | S754_infinity s' =>
      s' = s /\ forall ma ea, bounded prec emax ma ea = true -> mag ma ea < X
  | S754_nan => False
  end.

(** The constant 0.5 of the filter. *)
Definition SFhalf : spec_float := S754_finite false 4503599627370496 (-53).

(** Zero of either sign, a positive number or plus infinity. *)
Definition SFnonneg (x : spec_float) : bool :=
  match x with
  | S754_zero _ => true
  | S754_finite s _ _ => negb s
  | S754_infinity s => negb s
  | S754_nan => false
  end.

(** * Properties *)

(** ** Binary64 arithmetic *)

Lemma SFcompare_refl (x : spec_float) :
  SFnan x = false -> SFcompare x x = Some Eq.
Proof.
  destruct x as [s | s | | s m e]; cbn; try discriminate; intros _.
  - reflexivity.
  - now destruct s.
  - rewrite Z.compare_refl, Pos.compare_cont_refl. now destruct s.
Qed.

Lemma Prim2SF_infinity : Prim2SF infinity = S754_infinity false.
Proof. reflexivity. Qed.

Lemma is_nan_spec (x : float) : is_nan x = SFnan (Prim2SF x).
Proof.
  unfold is_nan. rewrite eqb_spec. unfold SFeqb.
  destruct (SFnan (Prim2SF x)) eqn:H.
  - destruct (Prim2SF x); try discriminate. reflexivity.
  - now rewrite SFcompare_refl.
Qed.

Lemma is_finite_spec (x : float) : is_finite x = SFfinite (Prim2SF x).
Proof.
  unfold is_finite. rewrite is_nan_spec. unfold is_infinity.
  rewrite eqb_spec, abs_spec, Prim2SF_infinity. unfold SFeqb.
  destruct (Prim2SF x) as [s | s | | s m e]; cbn; try reflexivity.
Qed.

(** ** Values *)

Lemma pow2_pos (n : Z) : 0 <= n -> 0 < 2 ^ n.
Proof. intros. apply Z.pow_pos_nonneg; lia. Qed.

Lemma pow2_S (n : Z) : 0 <= n -> 2 ^ (n + 1) = 2 * 2 ^ n.
Proof. intros. rewrite Z.pow_add_r by lia. lia. Qed.

Lemma pow2_add (a b : Z) : 0 <= a -> 0 <= b -> 2 ^ (a + b) = 2 ^ a * 2 ^ b.
Proof. intros. apply Z.pow_add_r; lia. Qed.

Lemma pow2_le (a b : Z) : 0 <= a <= b -> 2 ^ a <= 2 ^ b.
Proof. intros. apply Z.pow_le_mono_r; lia. Qed.

Lemma dg_pos (m : positive) : 1 <= dg m.
Proof. unfold dg. lia. Qed.

Lemma digits2_bounds (m : positive) : 2 ^ (dg m - 1) <= Zpos m < 2 ^ dg m.
Proof.
  unfold dg. induction m as [m IH | m IH |]; cbn [digits2_pos].
  - rewrite Pos2Z.inj_succ, Pos2Z.inj_xI.
    replace (Z.succ (Zpos (digits2_pos m)) - 1) with (Zpos (digits2_pos m) - 1 + 1) by lia.
    replace (Z.succ (Zpos (digits2_pos m))) with (Zpos (digits2_pos m) + 1) by lia.
    rewrite !pow2_S by lia. lia.
  - rewrite Pos2Z.inj_succ, Pos2Z.inj_xO.
    replace (Z.succ (Zpos (digits2_pos m)) - 1) with (Zpos (digits2_pos m) - 1 + 1) by lia.
    replace (Z.succ (Zpos (digits2_pos m))) with (Zpos (digits2_pos m) + 1) by lia.
    rewrite !pow2_S by lia. lia.
  - cbn. lia.
Qed.

(** The number of digits is the only [d] with [2^(d-1) <= m < 2^d]. *)
Lemma dg_unique (m : positive) (d : Z) :
  1 <= d -> 2 ^ (d - 1) <= Zpos m < 2 ^ d -> dg m = d.
Proof.
  intros Hd H. pose proof (digits2_bounds m) as Hm. pose proof (dg_pos m).
  destruct (Z.lt_trichotomy (dg m) d) as [Hlt | [Heq | Hgt]]; [|assumption|].
  - pose proof (pow2_le (dg m) (d - 1) ltac:(lia)). lia.
  - pose proof (pow2_le d (dg m - 1) ltac:(lia)). lia.
Qed.

Lemma mag_pos (m : positive) (e : Z) : -1127 <= e -> 0 < mag m e.
Proof. intros. unfold mag. pose proof (pow2_pos (e + 1127)). nia. Qed.

(** ** Valid numbers *)

Lemma bounded_spec (m : positive) (e : Z) :
  bounded prec emax m e = true <->
  Z.max (dg m + e - 53) (-1074) = e /\ e <= 971.
Proof.
  unfold bounded, canonical_mantissa, fexp, SpecFloat.emin, prec, emax, dg.
  rewrite andb_true_iff, Z.eqb_eq, Z.leb_le. reflexivity.
Qed.

Lemma bounded_facts (m : positive) (e : Z) :
  bounded prec emax m e = true ->
  -1074 <= e <= 971 /\ dg m <= 53 /\ (-1074 < e -> dg m = 53).
Proof. rewrite bounded_spec. lia. Qed.

(** Among valid numbers, a smaller exponent means a smaller value. *)
Lemma mag_lt_exponent (m1 m2 : positive) (e1 e2 : Z) :
  bounded prec emax m1 e1 = true -> bounded prec emax m2 e2 = true ->
  e1 < e2 -> mag m1 e1 < mag m2 e2.
Proof.
  intros H1 H2 He. apply bounded_facts in H1, H2. unfold mag.
  pose proof (digits2_bounds m1) as B1. pose proof (digits2_bounds m2) as B2.
  replace (dg m2) with 53 in B2 by lia.
  assert (Zpos m1 < 2 ^ 53).
  { pose proof (pow2_le (dg m1) 53 ltac:(pose proof (dg_pos m1); lia)). lia. }
  pose proof (pow2_pos (e1 + 1127) ltac:(lia)).
  pose proof (pow2_pos (e2 + 1127) ltac:(lia)).
  assert (2 * 2 ^ (e1 + 1127) <= 2 ^ (e2 + 1127)).
  { rewrite <- pow2_S by lia. apply pow2_le. lia. }
  change (2 ^ (53 - 1)) with 4503599627370496 in B2.
  change (2 ^ 53) with 9007199254740992 in *.
  nia.
Qed.

Lemma SFcompare_value (x y : spec_float) :
  valid_binary x = true -> valid_binary y = true ->
  SFfinite x = true -> SFfinite y = true ->
  SFcompare x y = Some (SFvalue x ?= SFvalue y).
Proof.
  destruct x as [sx | sx | | sx mx ex], y as [sy | sy | | sy my ey];
    cbn [SFfinite valid_binary SFvalue SFcompare]; try discriminate;
    intros Vx Vy _ _.
  - reflexivity.
  - pose proof (mag_pos my ey ltac:(apply bounded_facts in Vy; lia)).
    f_equal. symmetry. destruct sy; cbn [cond_Zopp]; [apply Z.compare_gt_iff | apply Z.compare_lt_iff]; lia.
  - pose proof (mag_pos mx ex ltac:(apply bounded_facts in Vx; lia)).
    f_equal. symmetry. destruct sx; cbn [cond_Zopp]; [apply Z.compare_lt_iff | apply Z.compare_gt_iff]; lia.
  - pose proof (mag_pos mx ex ltac:(apply bounded_facts in Vx; lia)) as Px.
    pose proof (mag_pos my ey ltac:(apply bounded_facts in Vy; lia)) as Py.
    assert (Hlt : ex < ey -> mag mx ex < mag my ey) by (now apply mag_lt_exponent).
    assert (Hgt : ey < ex -> mag my ey < mag mx ex) by (now apply mag_lt_exponent).
    assert (Heq : ex = ey -> (Pos.compare_cont Eq mx my) = (mag mx ex ?= mag my ey)).
    { intros ->. unfold mag. change (Pos.compare_cont Eq mx my) with (Zpos mx ?= Zpos my).
      apply Zmult_compare_compat_r. apply Z.lt_gt, pow2_pos. apply bounded_facts in Vy. lia. }
    f_equal. destruct sx, sy; cbn [cond_Zopp].
    + replace (- mag mx ex ?= - mag my ey) with (CompOpp (mag mx ex ?= mag my ey))
        by (rewrite Z.compare_opp; symmetry; apply Z.compare_antisym).
      destruct (Z.compare_spec ex ey) as [E | E | E].
      * now rewrite (Heq E).
      * apply Hlt, Z.compare_lt_iff in E. now rewrite E.
      * apply Hgt, Z.compare_gt_iff in E. now rewrite E.
    + symmetry. apply Z.compare_lt_iff. lia.
    + symmetry. apply Z.compare_gt_iff. lia.
    + destruct (Z.compare_spec ex ey) as [E | E | E].
      * apply (Heq E).
      * symmetry. apply Z.compare_lt_iff. auto.
      * symmetry. apply Z.compare_gt_iff. auto.
Qed.

(** ** Shifting right *)

Lemma mod_pow2_S (N j : Z) :
  0 <= N -> 0 <= j ->
  N mod 2 ^ (j + 1) = 0 -> N mod 2 ^ j = 0 /\ (N / 2 ^ j) mod 2 = 0.
Proof.
  intros HN Hj H. pose proof (pow2_pos j Hj) as Hp.
  rewrite pow2_add, Z.rem_mul_r in H by lia. change (2 ^ 1) with 2 in H.
  pose proof (Z.mod_pos_bound N (2 ^ j) Hp).
  pose proof (Z.mod_pos_bound (N / 2 ^ j) 2 ltac:(lia)).
  nia.
Qed.

Lemma shr_1_shifted (N j : Z) (mrs : shr_record) :
  0 <= N -> 0 <= j -> shifted N j mrs -> shifted N (j + 1) (shr_1 mrs).
Proof.
  intros HN Hj [Hm Hx]. pose proof (pow2_pos j Hj) as Hp.
  assert (Hq : N / 2 ^ (j + 1) = N / 2 ^ j / 2).
  { rewrite pow2_add by lia. change (2 ^ 1) with 2. rewrite Z.div_div by lia.
    reflexivity. }
  assert (Hnn : 0 <= N / 2 ^ j) by (apply Z.div_pos; lia).
  destruct mrs as [m r s]. cbn [shr_m shr_r shr_s] in *. subst m.
  split.
  - rewrite Hq. destruct (N / 2 ^ j) as [|p|p]; [reflexivity | | lia].
    destruct p as [p|p|]; cbn [shr_1 shr_m].
    + rewrite Pos2Z.inj_xI. apply Z.div_unique with 1; lia.
    + rewrite Pos2Z.inj_xO. apply Z.div_unique with 0; lia.
    + reflexivity.
  - intros H0. apply mod_pow2_S in H0; trivial. destruct H0 as [H0 Hev].
    destruct (Hx H0) as [-> ->].
    destruct (N / 2 ^ j) as [|p|p]; [split; reflexivity | | lia].
    destruct p as [p|p|]; cbn [shr_1 shr_r shr_s orb].
    + rewrite Pos2Z.inj_xI in Hev.
      rewrite Z.add_comm, Z.mul_comm, Z.mod_add in Hev by lia. discriminate.
    + split; reflexivity.
    + discriminate.
Qed.

Lemma iter_pos_shifted (p : positive) :
  forall (N j : Z) (mrs : shr_record),
    0 <= N -> 0 <= j -> shifted N j mrs ->
    shifted N (j + Zpos p) (iter_pos shr_1 p mrs).
Proof.
  induction p as [p IH | p IH |]; intros N j mrs HN Hj H; cbn [iter_pos].
  - replace (j + Zpos p~1) with (j + 1 + Zpos p + Zpos p) by lia.
    apply IH; try lia. apply IH; try lia. now apply shr_1_shifted.
  - replace (j + Zpos p~0) with (j + Zpos p + Zpos p) by lia.
    apply IH; try lia. now apply IH.
  - now apply shr_1_shifted.
Qed.

Lemma fexp_64 (e : Z) : fexp prec emax e = fexp64 e.
Proof. reflexivity. Qed.

(** One alignment step on an exact mantissa. *)
Lemma shr_fexp_exact (m e : Z) :
  0 <= m ->
  let k := Z.max (fexp64 (Zdigits2 m + e) - e) 0 in
  snd (shr_fexp prec emax m e loc_Exact) = e + k
  /\ shifted m k (fst (shr_fexp prec emax m e loc_Exact)).
Proof.
  intros Hm k. subst k. unfold shr_fexp. rewrite fexp_64.
  cbn [shr_record_of_loc].
  destruct (fexp64 (Zdigits2 m + e) - e) as [|p|p] eqn:Hk; cbn [shr fst snd].
  - rewrite Z.add_0_r. split; [reflexivity|]. split; cbn; [now rewrite Z.div_1_r | auto].
  - rewrite Z.max_l by lia. split; [reflexivity|].
    apply (iter_pos_shifted p m 0); try lia.
    split; cbn; [now rewrite Z.div_1_r | auto].
  - rewrite Z.max_r by lia. rewrite Z.add_0_r. split; [reflexivity|].
    split; cbn; [now rewrite Z.div_1_r | auto].
Qed.

Lemma round_nearest_even_range (mrs : shr_record) :
  let m := round_nearest_even (shr_m mrs) (loc_of_shr_record mrs) in
  (m = shr_m mrs \/ m = shr_m mrs + 1)
  /\ (shr_r mrs = false -> shr_s mrs = false -> m = shr_m mrs).
Proof.
  destruct mrs as [m [|] [|]]; cbn; try destruct (Z.even m); auto; split; auto; discriminate.
Qed.

(** ** Canonical mantissas *)

Lemma bounded_canon (m : positive) (e : Z) :
  bounded prec emax m e = true <-> canon m e /\ e <= 971.
Proof. rewrite bounded_spec. reflexivity. Qed.

(** Digits of a quotient by a power of two. *)
Lemma dg_div_pow2 (m q : positive) (k : Z) :
  0 <= k -> Zpos q = Zpos m / 2 ^ k -> dg q = dg m - k.
Proof.
  intros Hk Hq. pose proof (pow2_pos k Hk) as Hp.
  pose proof (digits2_bounds m) as Bm. pose proof (dg_pos m) as Dm.
  pose proof (Z.div_mod (Zpos m) (2 ^ k) ltac:(lia)) as Hdm.
  pose proof (Z.mod_pos_bound (Zpos m) (2 ^ k) Hp) as Hmod.
  rewrite <- Hq in Hdm.
  assert (Hlt : k < dg m).
  { destruct (Z.lt_ge_cases k (dg m)) as [|Hge]; [assumption|].
    pose proof (pow2_le (dg m) k ltac:(lia)).
    assert (Zpos m / 2 ^ k = 0) by (apply Z.div_small; lia). lia. }
  apply dg_unique; [lia|].
  replace (dg m - 1) with ((dg m - k - 1) + k) in Bm by lia.
  replace (dg m) with ((dg m - k) + k) in Bm at 2 by lia.
  rewrite !pow2_add in Bm by lia.
  pose proof (pow2_pos (dg m - k - 1) ltac:(lia)).
  pose proof (pow2_pos (dg m - k) ltac:(lia)).
  split.
  - destruct (Z.le_gt_cases (2 ^ (dg m - k - 1)) (Zpos q)) as [|Hc]; [assumption|].
    assert (Zpos q + 1 <= 2 ^ (dg m - k - 1)) by lia. nia.
  - destruct (Z.lt_ge_cases (Zpos q) (2 ^ (dg m - k))) as [|Hc]; [assumption|]. nia.
Qed.

(** Digits of a successor. *)
Lemma dg_succ (p : positive) :
  dg (p + 1) = dg p \/ (dg (p + 1) = dg p + 1 /\ Zpos (p + 1) = 2 * 2 ^ (dg p - 1)).
Proof.
  pose proof (digits2_bounds p) as Bp. pose proof (dg_pos p) as Dp.
  assert (Hpow : 2 ^ dg p = 2 * 2 ^ (dg p - 1)).
  { rewrite <- pow2_S by lia. f_equal. lia. }
  destruct (Z.lt_ge_cases (Zpos p + 1) (2 ^ dg p)) as [Hlt | Hge].
  - left. apply dg_unique; [lia|]. rewrite Pos2Z.inj_add. lia.
  - right. assert (Heq : Zpos (p + 1) = 2 ^ dg p) by lia.
    split; [|lia]. apply dg_unique; [lia|].
    replace (dg p + 1 - 1) with (dg p) by lia. rewrite pow2_S by lia. lia.
Qed.

Lemma dg_xO (p : positive) : dg p~0 = dg p + 1.
Proof. unfold dg. cbn [digits2_pos]. lia. Qed.

(** ** Rounding *)

(** The second alignment of [binary_round_aux]: at most one more digit is
    dropped, and that digit is 0. *)
Lemma round_finish (m2 : positive) (e1 : Z) :
  fexp64 (dg m2 + e1) = e1
  \/ (fexp64 (dg m2 + e1) = e1 + 1 /\ exists h, m2 = xO h) ->
  exists mf : positive,
    shr_m (fst (shr_fexp prec emax (Zpos m2) e1 loc_Exact)) = Zpos mf
    /\ canon mf (snd (shr_fexp prec emax (Zpos m2) e1 loc_Exact))
    /\ Zpos mf * 2 ^ (snd (shr_fexp prec emax (Zpos m2) e1 loc_Exact) - e1) = Zpos m2
    /\ e1 <= snd (shr_fexp prec emax (Zpos m2) e1 loc_Exact).
Proof.
  intros H.
  destruct (shr_fexp_exact (Zpos m2) e1 ltac:(lia)) as [He [Hm _]].
  cbn [Zdigits2] in He, Hm. fold (dg m2) in He, Hm.
  rewrite He, Hm. destruct H as [H | [H [h ->]]]; rewrite H.
  - replace (Z.max (e1 - e1) 0) with 0 by lia. exists m2.
    rewrite Z.add_0_r. replace (e1 - e1) with 0 by lia.
    change (2 ^ 0) with 1. rewrite Z.div_1_r.
    repeat split; trivial; lia.
  - replace (Z.max (e1 + 1 - e1) 0) with 1 by lia. exists h.
    replace (e1 + 1 - e1) with 1 by lia. change (2 ^ 1) with 2.
    repeat split; try lia.
    + rewrite Pos2Z.inj_xO, Z.mul_comm. apply Z.div_mul. lia.
    + unfold canon. rewrite dg_xO in H. rewrite <- H. f_equal. lia.
Qed.

(** What [binary_round_aux] returns on an exact mantissa [mx] at exponent
    [ex] that needs [k >= 0] digits dropped: with [q] the quotient of [mx] by
    [2^k], the result is [q] or, if something was dropped, possibly [q + 1],
    at exponent [ex + k], written canonically. *)
Lemma binary_round_aux_shape (s : bool) (mx : positive) (ex : Z) :
  let k := fexp64 (dg mx + ex) - ex in
  let q := Zpos mx / 2 ^ k in
  0 <= k ->
  exists m2 : Z,
    (m2 = q \/ (m2 = q + 1 /\ Zpos mx mod 2 ^ k <> 0))
    /\ match binary_round_aux prec emax s (Zpos mx) ex loc_Exact with
       | S754_zero s' => s' = s /\ m2 = 0
       | S754_finite s' mf ef =>
           s' = s /\ canon mf ef /\ ef <= 971
           /\ Zpos mf * 2 ^ (ef - (ex + k)) = m2 /\ ex + k <= ef
       | S754_infinity s' =>
           s' = s /\ exists mf ef,
             canon mf ef /\ 971 < ef
             /\ Zpos mf * 2 ^ (ef - (ex + k)) = m2 /\ ex + k <= ef
       | S754_nan => False
       end.
Proof.
  intros k q Hk. unfold binary_round_aux.
  destruct (shr_fexp_exact (Zpos mx) ex ltac:(lia)) as [He1 [Hm1 Hx1]].
  cbn [Zdigits2] in He1, Hm1, Hx1. fold (dg mx) in He1, Hm1, Hx1.
  fold k in He1, Hm1, Hx1. rewrite Z.max_l in He1, Hm1, Hx1 by lia.
  destruct (shr_fexp prec emax (Zpos mx) ex loc_Exact) as [mrs1 e1].
  cbn [fst snd] in He1, Hm1, Hx1. subst e1. fold q in Hm1.
  destruct (round_nearest_even_range mrs1) as [Hrange Hexact].
  set (m2 := round_nearest_even (shr_m mrs1) (loc_of_shr_record mrs1)) in *.
  rewrite Hm1 in Hrange, Hexact.
  pose proof (pow2_pos k Hk) as Hp.
  assert (Hq0 : 0 <= q) by (apply Z.div_pos; lia).
  assert (Hm2 : m2 = q \/ (m2 = q + 1 /\ Zpos mx mod 2 ^ k <> 0)).
  { destruct Hrange as [-> | ->]; [now left|].
    destruct (Z.eq_dec (Zpos mx mod 2 ^ k) 0) as [H0 | Hn0].
    - left. destruct (Hx1 H0) as [Hr Hs]. rewrite (Hexact Hr Hs) at 1. lia.
    - right. split; trivial. }
  exists m2. split; [exact Hm2|].
  assert (Hfe : fexp64 (dg mx + ex) = ex + k) by (unfold k; lia).
  destruct m2 as [|p2|p2] eqn:Ep2; [ | | lia].
  - (* the rounded mantissa is zero *)
    assert (Hz : shr_fexp prec emax 0 (ex + k) loc_Exact
                 = (Build_shr_record 0 false false, ex + k)).
    { unfold shr_fexp. cbn [Zdigits2 shr_record_of_loc]. rewrite fexp_64.
      destruct (fexp64 (0 + (ex + k)) - (ex + k)) as [|p|p] eqn:Hs; cbn [shr];
        try reflexivity.
      unfold fexp64 in Hs, Hfe. lia. }
    rewrite Hz. cbn [shr_m]. split; reflexivity.
  - (* the rounded mantissa is positive *)
    assert (Hfin : fexp64 (dg p2 + (ex + k)) = ex + k
                   \/ (fexp64 (dg p2 + (ex + k)) = ex + k + 1 /\ exists h, p2 = xO h)).
    { destruct (Z.eq_dec q 0) as [Hqz | Hqnz].
      - (* everything was dropped: the result is the least positive number *)
        assert (p2 = 1%positive) by lia. subst p2. left.
        assert (Zpos mx < 2 ^ k).
        { destruct (Z.lt_ge_cases (Zpos mx) (2 ^ k)) as [|Hge]; [assumption|].
          assert (1 <= q) by (apply Z.div_le_lower_bound; lia). lia. }
        assert (dg mx <= k).
        { destruct (Z.le_gt_cases (dg mx) k) as [|Hgt]; [assumption|].
          pose proof (digits2_bounds mx). pose proof (pow2_le k (dg mx - 1) ltac:(lia)).
          lia. }
        unfold fexp64 in *. change (dg 1) with 1. lia.
      - destruct (Z.lt_trichotomy q 0) as [|[|Hqpos]]; try lia.
        destruct q as [|pq|pq] eqn:Eq; try lia.
        assert (Hdq : dg pq = dg mx - k) by (apply (dg_div_pow2 mx pq k Hk); subst q; lia).
        destruct Hm2 as [Hm2 | [Hm2 _]].
        + left. replace p2 with pq by lia. rewrite Hdq, <- Hfe. f_equal. lia.
        + assert (p2 = (pq + 1)%positive) by lia. subst p2.
          destruct (dg_succ pq) as [Hd | [Hd Hpow]].
          * left. rewrite Hd, Hdq, <- Hfe. f_equal. lia.
          * rewrite Hd, Hdq.
            replace (dg mx - k + 1 + (ex + k)) with (dg mx + ex + 1) by lia.
            unfold fexp64 in *.
            destruct (Z.le_gt_cases (dg mx + ex + 1 - 53) (-1074)) as [Hsub | Hnorm].
            -- left. lia.
            -- right. split; [lia|].
               pose proof (dg_pos pq).
               destruct (pq + 1)%positive as [h|h|] eqn:Eh.
               ++ rewrite Pos2Z.inj_xI in Hpow. lia.
               ++ now exists h.
               ++ pose proof (pow2_pos (dg pq - 1) ltac:(lia)). lia. }
    destruct (round_finish p2 (ex + k) Hfin) as (mf & Hmf & Hcanon & Hval & Hle).
    destruct (shr_fexp prec emax (Zpos p2) (ex + k) loc_Exact) as [mrs2 e2].
    cbn [fst snd] in Hmf, Hcanon, Hval, Hle. rewrite Hmf.
    change (emax - prec) with 971.
    destruct (Z.leb_spec e2 971).
    + repeat split; trivial.
    + split; [reflexivity|]. exists mf, e2. repeat split; trivial.
Qed.

Lemma canon_facts (m : positive) (e : Z) :
  canon m e -> -1074 <= e /\ dg m <= 53 /\ (-1074 < e -> dg m = 53).
Proof. unfold canon, fexp64. lia. Qed.

Lemma canon_lt_2p53 (m : positive) (e : Z) : canon m e -> Zpos m < 2 ^ 53.
Proof.
  intros H. apply canon_facts in H. pose proof (digits2_bounds m).
  pose proof (dg_pos m). pose proof (pow2_le (dg m) 53 ltac:(lia)). lia.
Qed.

Lemma canon_ge_2p52 (m : positive) (e : Z) :
  canon m e -> -1074 < e -> 2 ^ 52 <= Zpos m.
Proof.
  intros H He. apply canon_facts in H. pose proof (digits2_bounds m) as B.
  replace (dg m) with 53 in B by lia. exact (proj1 B).
Qed.

Lemma mag_lt_canon (m1 m2 : positive) (e1 e2 : Z) :
  canon m1 e1 -> canon m2 e2 -> e1 < e2 -> mag m1 e1 < mag m2 e2.
Proof.
  intros H1 H2 He. unfold mag.
  pose proof (canon_lt_2p53 m1 e1 H1).
  pose proof (canon_facts _ _ H1).
  pose proof (canon_ge_2p52 m2 e2 H2 ltac:(lia)).
  pose proof (pow2_pos (e1 + 1127) ltac:(lia)).
  assert (2 * 2 ^ (e1 + 1127) <= 2 ^ (e2 + 1127)).
  { rewrite <- pow2_S by lia. apply pow2_le. lia. }
  change (2 ^ 52) with 4503599627370496 in *.
  change (2 ^ 53) with 9007199254740992 in *.
  nia.
Qed.

Lemma mul_le_cancel (a b p : Z) : 0 < p -> a * p <= b * p -> a <= b.
Proof. intros Hp H. now apply (Z.mul_le_mono_pos_r a b p Hp). Qed.

Lemma mul_lt_cancel (a b p : Z) : 0 < p -> a * p < b * p -> a < b.
Proof. intros Hp H. now apply (Z.mul_lt_mono_pos_r p a b Hp). Qed.

Section Sandwich.

Variables (mx : positive) (ex : Z).
Let k := fexp64 (dg mx + ex) - ex.
Let q := Zpos mx / 2 ^ k.
Hypothesis Hex : -1127 <= ex.
Hypothesis Hk : 0 <= k.

Lemma quotient_bounds : q * 2 ^ k <= Zpos mx < (q + 1) * 2 ^ k.
Proof.
  pose proof (pow2_pos k Hk) as Hp.
  pose proof (Z.div_mod (Zpos mx) (2 ^ k) ltac:(lia)).
  pose proof (Z.mod_pos_bound (Zpos mx) (2 ^ k) Hp). fold q in H. nia.
Qed.

Lemma unit_split : 2 ^ (ex + k + 1127) = 2 ^ k * 2 ^ (ex + 1127).
Proof. rewrite <- pow2_add by lia. f_equal. lia. Qed.

(** When the number has more digits than fit, the quotient has 53. *)
Lemma quotient_normal : -1074 < ex + k -> 2 ^ 52 <= q.
Proof.
  intros Hn. unfold q. apply Z.div_le_lower_bound; [now apply pow2_pos|].
  assert (Hd : dg mx - 1 = k + 52) by (unfold k, fexp64 in *; lia).
  pose proof (digits2_bounds mx) as B. rewrite Hd, pow2_add in B by lia. lia.
Qed.

(** A valid number under the exact value is under the quotient. *)
Lemma mag_lower (ma : positive) (ea : Z) :
  canon ma ea -> mag ma ea <= mag mx ex ->
  mag ma ea <= q * 2 ^ (ex + k + 1127).
Proof.
  intros Ha Hle. unfold mag in *. rewrite unit_split.
  pose proof quotient_bounds as Hq.
  pose proof (pow2_pos k Hk) as HK.
  pose proof (pow2_pos (ex + 1127) ltac:(lia)) as HP.
  pose proof (canon_facts _ _ Ha) as Fa.
  destruct (Z.le_gt_cases (ex + k) ea) as [Hge | Hlt].
  - replace (ea + 1127) with ((ea - (ex + k)) + k + (ex + 1127)) in * by lia.
    rewrite (pow2_add (ea - (ex + k) + k)), (pow2_add (ea - (ex + k)) k) in * by lia.
    pose proof (pow2_pos (ea - (ex + k)) ltac:(lia)) as HT.
    set (T := 2 ^ (ea - (ex + k))) in *. set (K := 2 ^ k) in *.
    set (P := 2 ^ (ex + 1127)) in *.
    assert (Zpos ma * T * K <= Zpos mx) by (apply (mul_le_cancel _ _ P HP); nia).
    assert (Zpos ma * T < q + 1) by (apply (mul_lt_cancel _ _ K HK); nia).
    assert (Zpos ma * T <= q) by lia.
    transitivity (Zpos ma * T * (K * P)); [apply Z.eq_le_incl; ring|].
    apply Z.mul_le_mono_nonneg_r; [apply Z.mul_nonneg_nonneg; lia | lia].
  - pose proof (quotient_normal ltac:(lia)) as Hqn.
    pose proof (canon_lt_2p53 _ _ Ha) as Hm.
    replace (2 ^ k * 2 ^ (ex + 1127)) with (2 ^ (ex + k + 1127))
      by apply unit_split.
    replace (ex + k + 1127) with ((ex + k - ea - 1) + 1 + (ea + 1127)) by lia.
    rewrite (pow2_add (ex + k - ea - 1 + 1)), (pow2_add (ex + k - ea - 1) 1) by lia.
    change (2 ^ 1) with 2.
    pose proof (pow2_pos (ex + k - ea - 1) ltac:(lia)) as HT.
    pose proof (pow2_pos (ea + 1127) ltac:(lia)) as HA.
    change (2 ^ 52) with 4503599627370496 in *.
    change (2 ^ 53) with 9007199254740992 in *.
    set (T := 2 ^ (ex + k - ea - 1)) in *. set (A := 2 ^ (ea + 1127)) in *.
    assert (q <= q * T) by nia.
    assert (Zpos ma <= q * (T * 2)) by lia.
    transitivity (q * (T * 2) * A); [|apply Z.eq_le_incl; ring].
    apply Z.mul_le_mono_nonneg_r; lia.
Qed.

(** The rounded value is under every valid number over the exact value. *)
Lemma mag_upper (ma : positive) (ea : Z) (m2 : Z) :
  canon ma ea -> mag mx ex <= mag ma ea ->
  m2 = q \/ (m2 = q + 1 /\ Zpos mx mod 2 ^ k <> 0) ->
  m2 * 2 ^ (ex + k + 1127) <= mag ma ea.
Proof.
  intros Ha Hle Hm2. unfold mag in *. rewrite unit_split.
  pose proof quotient_bounds as Hq.
  pose proof (pow2_pos k Hk) as HK.
  pose proof (pow2_pos (ex + 1127) ltac:(lia)) as HP.
  pose proof (canon_facts _ _ Ha) as Fa.
  assert (Hq0 : 0 <= q) by (apply Z.div_pos; lia).
  destruct Hm2 as [-> | [-> Hrem]]; [nia|].
  assert (Hstrict : q * 2 ^ k < Zpos mx).
  { pose proof (Z.div_mod (Zpos mx) (2 ^ k) ltac:(lia)) as Hdm.
    pose proof (Z.mod_pos_bound (Zpos mx) (2 ^ k) HK). fold q in Hdm. nia. }
  destruct (Z.le_gt_cases (ex + k) ea) as [Hge | Hlt].
  - replace (ea + 1127) with ((ea - (ex + k)) + k + (ex + 1127)) in * by lia.
    rewrite (pow2_add (ea - (ex + k) + k)), (pow2_add (ea - (ex + k)) k) in * by lia.
    pose proof (pow2_pos (ea - (ex + k)) ltac:(lia)) as HT.
    set (T := 2 ^ (ea - (ex + k))) in *. set (K := 2 ^ k) in *.
    set (P := 2 ^ (ex + 1127)) in *.
    assert (Zpos mx <= Zpos ma * T * K) by (apply (mul_le_cancel _ _ P HP); nia).
    assert (q < Zpos ma * T) by (apply (mul_lt_cancel _ _ K HK); nia).
    assert (q + 1 <= Zpos ma * T) by lia.
    transitivity (Zpos ma * T * (K * P)); [|apply Z.eq_le_incl; ring].
    apply Z.mul_le_mono_nonneg_r; [apply Z.mul_nonneg_nonneg; lia | lia].
  - exfalso.
    pose proof (quotient_normal ltac:(lia)) as Hqn.
    pose proof (canon_lt_2p53 _ _ Ha) as Hm.
    assert (Hu : 2 ^ (ex + k + 1127) = 2 ^ k * 2 ^ (ex + 1127)) by apply unit_split.
    replace (ex + k + 1127) with ((ex + k - ea - 1) + 1 + (ea + 1127)) in Hu by lia.
    rewrite (pow2_add (ex + k - ea - 1 + 1)), (pow2_add (ex + k - ea - 1) 1) in Hu by lia.
    change (2 ^ 1) with 2 in Hu.
    pose proof (pow2_pos (ex + k - ea - 1) ltac:(lia)) as HT.
    pose proof (pow2_pos (ea + 1127) ltac:(lia)) as HA.
    change (2 ^ 52) with 4503599627370496 in *.
    change (2 ^ 53) with 9007199254740992 in *.
    set (T := 2 ^ (ex + k - ea - 1)) in *. set (A := 2 ^ (ea + 1127)) in *.
    set (K := 2 ^ k) in *. set (P := 2 ^ (ex + 1127)) in *.
    assert (q <= q * T) by nia.
    assert (Zpos ma < q * (T * 2)) by lia.
    assert (Zpos ma * A < q * (T * 2) * A) by (apply Z.mul_lt_mono_pos_r; lia).
    assert (q * (T * 2) * A = q * (K * P)) by (rewrite <- Hu; ring).
    assert (q * (K * P) <= Zpos mx * P).
    { transitivity (q * K * P); [apply Z.eq_le_incl; ring|].
      apply Z.mul_le_mono_nonneg_r; lia. }
    lia.
Qed.

End Sandwich.

(** ** Correct roundings *)

Lemma representable_cases (a : Z) :
  representable a ->
  a = 0 \/ exists s m e, bounded prec emax m e = true /\ a = cond_Zopp s (mag m e).
Proof.
  intros [x (Hv & Hf & Ha)]. destruct x as [s | s | | s m e]; try discriminate.
  - now left.
  - right. exists s, m, e. cbn in *. auto.
Qed.

Lemma bounded_mag_pos (m : positive) (e : Z) :
  bounded prec emax m e = true -> 0 < mag m e.
Proof. intros H. apply mag_pos. apply bounded_facts in H. lia. Qed.

Lemma rounds_of_mag (s : bool) (X : Z) (r : spec_float) :
  0 < X -> rounds_mag s X r -> rounds (cond_Zopp s X) r.
Proof.
  intros HX Hr. destruct r as [s' | s' | | s' mf ef]; cbn [rounds_mag] in Hr;
    [ destruct Hr as [-> Hnone] | destruct Hr as [-> Hnone] | contradiction
    | destruct Hr as (-> & Hb & Hlo & Hup) ].
  - (* zero *)
    split; [reflexivity|]. split; intros a Ha Hle; cbn [at_least at_most SFvalue];
      destruct (representable_cases a Ha) as [-> | (sa & ma & ea & Hba & ->)];
      try lia; pose proof (Hnone ma ea Hba); pose proof (bounded_mag_pos ma ea Hba);
      destruct s, sa; cbn [cond_Zopp] in *; lia.
  - (* infinity *)
    split; [reflexivity|]. split; intros a Ha Hle; cbn [at_least at_most];
      destruct (representable_cases a Ha) as [-> | (sa & ma & ea & Hba & ->)];
      try (destruct s; cbn [cond_Zopp] in *; (reflexivity || lia));
      pose proof (Hnone ma ea Hba); pose proof (bounded_mag_pos ma ea Hba);
      destruct s, sa; cbn [cond_Zopp] in *; (reflexivity || lia).
  - (* finite *)
    pose proof (bounded_mag_pos mf ef Hb).
    split; [exact Hb|]. split; intros a Ha Hle; cbn [at_least at_most SFvalue];
      destruct (representable_cases a Ha) as [-> | (sa & ma & ea & Hba & ->)];
      try (destruct s; cbn [cond_Zopp] in *; lia);
      pose proof (Hlo ma ea Hba); pose proof (Hup ma ea Hba);
      pose proof (bounded_mag_pos ma ea Hba);
      destruct s, sa; cbn [cond_Zopp] in *; lia.
Qed.

Lemma binary_round_aux_rounds (s : bool) (mx : positive) (ex : Z) :
  -1127 <= ex -> 0 <= fexp64 (dg mx + ex) - ex ->
  rounds_mag s (mag mx ex) (binary_round_aux prec emax s (Zpos mx) ex loc_Exact).
Proof.
  intros Hex Hk.
  destruct (binary_round_aux_shape s mx ex Hk) as (m2 & Hm2 & Hshape).
  set (k := fexp64 (dg mx + ex) - ex) in *.
  set (q := Zpos mx / 2 ^ k) in *.
  pose proof (pow2_pos (ex + k + 1127) ltac:(lia)) as HU.
  assert (Hq0 : 0 <= q) by (apply Z.div_pos; [lia | apply pow2_pos; lia]).
  assert (Hqm : q <= m2) by (destruct Hm2 as [-> | [-> _]]; lia).
  assert (Hval : forall mf ef, ex + k <= ef ->
            Zpos mf * 2 ^ (ef - (ex + k)) = m2 -> mag mf ef = m2 * 2 ^ (ex + k + 1127)).
  { intros mf ef Hle <-. unfold mag.
    replace (ef + 1127) with ((ef - (ex + k)) + (ex + k + 1127)) by lia.
    rewrite pow2_add by lia. ring. }
  destruct (binary_round_aux prec emax s (Zpos mx) ex loc_Exact)
    as [s' | s' | | s' mf ef]; cbn [rounds_mag].
  - destruct Hshape as [-> ->]. split; [reflexivity|]. intros ma ea Hb.
    destruct (Z.lt_ge_cases (mag mx ex) (mag ma ea)) as [|Hge]; [assumption|].
    apply bounded_canon in Hb. destruct Hb as [Hc _].
    pose proof (mag_lower mx ex Hex Hk ma ea Hc Hge) as Hl. fold k q in Hl.
    pose proof (mag_pos ma ea ltac:(apply canon_facts in Hc; lia)). nia.
  - destruct Hshape as (-> & mf & ef & Hc & Hbig & Hv & Hle).
    split; [reflexivity|]. intros ma ea Hb.
    destruct (Z.lt_ge_cases (mag ma ea) (mag mx ex)) as [|Hge]; [assumption|].
    apply bounded_canon in Hb. destruct Hb as [Hca Hea].
    pose proof (mag_upper mx ex Hex Hk ma ea m2 Hca Hge Hm2) as Hu. fold k in Hu.
    rewrite <- (Hval mf ef Hle Hv) in Hu.
    pose proof (mag_lt_canon ma mf ea ef Hca Hc ltac:(lia)). lia.
  - contradiction.
  - destruct Hshape as (-> & Hc & Hsmall & Hv & Hle).
    split; [reflexivity|]. split; [apply bounded_canon; auto|].
    rewrite (Hval mf ef Hle Hv). split; intros ma ea Hb Hcmp;
      apply bounded_canon in Hb; destruct Hb as [Hca Hea].
    + pose proof (mag_lower mx ex Hex Hk ma ea Hca Hcmp) as Hl. fold k q in Hl.
      nia.
    + pose proof (mag_upper mx ex Hex Hk ma ea m2 Hca Hcmp Hm2) as Hu.
      fold k in Hu. exact Hu.
Qed.

(** ** [binary_round] and [binary_normalize] *)

Lemma iter_xO (d : positive) (m : positive) :
  Zpos (Pos.iter xO m d) = Zpos m * 2 ^ Zpos d.
Proof.
  revert m. induction d as [|d IH] using Pos.peano_ind; intros m.
  - cbn. lia.
  - intros. rewrite Pos.iter_succ, Pos2Z.inj_xO, IH, Pos2Z.inj_succ.
    replace (Z.succ (Zpos d)) with (Zpos d + 1) by lia.
    rewrite pow2_S by lia. ring.
Qed.

Lemma dg_iter_xO (d : positive) (m : positive) :
  dg (Pos.iter xO m d) = dg m + Zpos d.
Proof.
  revert m. induction d as [|d IH] using Pos.peano_ind; intros m.
  - cbn [Pos.iter]. apply dg_xO.
  - rewrite Pos.iter_succ, dg_xO, IH. lia.
Qed.

Lemma binary_round_rounds (s : bool) (mx : positive) (ex : Z) :
  -1074 <= ex ->
  rounds_mag s (mag mx ex) (binary_round prec emax s mx ex).
Proof.
  intros Hex. unfold binary_round, shl_align. rewrite fexp_64.
  fold (dg mx).
  destruct (fexp64 (dg mx + ex) - ex) as [|d|d] eqn:Hd; fold (dg mx) in Hd.
  - apply binary_round_aux_rounds; lia.
  - apply binary_round_aux_rounds; lia.
  - assert (Hf : fexp64 (dg mx + ex) = ex - Zpos d) by lia.
    rewrite Hf.
    replace (mag mx ex) with (mag (Pos.iter xO mx d) (ex - Zpos d)).
    + apply binary_round_aux_rounds; [unfold fexp64 in Hf; lia|].
      rewrite dg_iter_xO.
      replace (dg mx + Zpos d + (ex - Zpos d)) with (dg mx + ex) by lia. lia.
    + unfold mag. rewrite iter_xO.
      replace (ex + 1127) with (Zpos d + (ex - Zpos d + 1127)) by lia.
      rewrite (pow2_add (Zpos d)) by (unfold fexp64 in Hf; lia). ring.
Qed.

Lemma rounds_zero (s : bool) : rounds 0 (S754_zero s).
Proof.
  split; [reflexivity|]. split; intros a _ H; cbn; lia.
Qed.

Lemma binary_normalize_rounds (m e : Z) (sz : bool) :
  -1074 <= e ->
  rounds (m * 2 ^ (e + 1127)) (binary_normalize prec emax m e sz).
Proof.
  intros He. destruct m as [|p|p]; cbn [binary_normalize].
  - rewrite Z.mul_0_l. apply rounds_zero.
  - apply (rounds_of_mag false (mag p e)); [apply mag_pos; lia|].
    now apply binary_round_rounds.
  - replace (Zneg p * 2 ^ (e + 1127)) with (cond_Zopp true (mag p e))
      by (unfold mag; cbn [cond_Zopp]; lia).
    apply (rounds_of_mag true (mag p e)); [apply mag_pos; lia|].
    now apply binary_round_rounds.
Qed.

(** ** The operations *)

Lemma rounds_exact (x : spec_float) :
  valid_binary x = true -> SFfinite x = true -> rounds (SFvalue x) x.
Proof.
  intros Hv Hf. split; [exact Hv|].
  destruct x; try discriminate; split; intros a _ H; exact H.
Qed.

Lemma representable_value (x : spec_float) :
  valid_binary x = true -> SFfinite x = true -> representable (SFvalue x).
Proof. intros. now exists x. Qed.

Lemma representable_0 : representable 0.
Proof. exists (S754_zero false). repeat split. Qed.

(** A rounding of a value between two finite numbers is finite. *)
Lemma rounds_finite (X lo hi : Z) (r : spec_float) :
  rounds X r -> representable lo -> representable hi -> lo <= X <= hi ->
  SFfinite r = true /\ lo <= SFvalue r <= hi.
Proof.
  intros (_ & Hlo & Hhi) Rlo Rhi [H1 H2].
  specialize (Hlo lo Rlo H1). specialize (Hhi hi Rhi H2).
  destruct r as [s | s | | s m e]; cbn in *; try contradiction; try congruence;
    split; trivial; lia.
Qed.

Lemma shl_align_value (mx : positive) (ex ez : Z) :
  -1127 <= ez <= ex ->
  Zpos (fst (shl_align mx ex ez)) * 2 ^ (ez + 1127) = mag mx ex.
Proof.
  intros H. unfold shl_align, mag.
  destruct (ez - ex) as [|d|d] eqn:Hd; cbn [fst].
  - replace ez with ex by lia. reflexivity.
  - lia.
  - rewrite iter_xO.
    replace (ex + 1127) with (Zpos d + (ez + 1127)) by lia.
    rewrite (pow2_add (Zpos d)) by lia. ring.
Qed.

Lemma valid_finite_exponent (s : bool) (m : positive) (e : Z) :
  valid_binary (S754_finite s m e) = true -> -1074 <= e.
Proof. cbn. intros H. apply bounded_facts in H. lia. Qed.

Lemma SFadd_rounds (x y : spec_float) :
  valid_binary x = true -> valid_binary y = true ->
  SFfinite x = true -> SFfinite y = true ->
  rounds (SFvalue x + SFvalue y) (SF64add x y).
Proof.
  intros Vx Vy Fx Fy.
  destruct x as [sx | sx | | sx mx ex], y as [sy | sy | | sy my ey];
    try discriminate; unfold SF64add; cbn [SFadd SFvalue].
  - destruct sx, sy; apply rounds_zero.
  - apply (rounds_exact (S754_finite sy my ey)); trivial.
  - rewrite Z.add_0_r. apply (rounds_exact (S754_finite sx mx ex)); trivial.
  - pose proof (valid_finite_exponent _ _ _ Vx).
    pose proof (valid_finite_exponent _ _ _ Vy).
    set (ez := Z.min ex ey).
    replace (cond_Zopp sx (mag mx ex) + cond_Zopp sy (mag my ey))
      with ((cond_Zopp sx (Zpos (fst (shl_align mx ex ez)))
             + cond_Zopp sy (Zpos (fst (shl_align my ey ez)))) * 2 ^ (ez + 1127)).
    + apply binary_normalize_rounds. unfold ez. lia.
    + rewrite <- (shl_align_value mx ex ez), <- (shl_align_value my ey ez)
        by (unfold ez; lia).
      destruct sx, sy; cbn [cond_Zopp]; ring.
Qed.

Lemma SFsub_rounds (x y : spec_float) :
  valid_binary x = true -> valid_binary y = true ->
  SFfinite x = true -> SFfinite y = true ->
  rounds (SFvalue x - SFvalue y) (SF64sub x y).
Proof.
  intros Vx Vy Fx Fy.
  destruct x as [sx | sx | | sx mx ex], y as [sy | sy | | sy my ey];
    try discriminate; unfold SF64sub; cbn [SFsub SFvalue].
  - destruct sx, sy; apply rounds_zero.
  - replace (0 - cond_Zopp sy (mag my ey))
      with (SFvalue (S754_finite (negb sy) my ey))
      by (destruct sy; cbn; lia).
    apply rounds_exact; trivial.
  - rewrite Z.sub_0_r. apply (rounds_exact (S754_finite sx mx ex)); trivial.
  - pose proof (valid_finite_exponent _ _ _ Vx).
    pose proof (valid_finite_exponent _ _ _ Vy).
    set (ez := Z.min ex ey).
    replace (cond_Zopp sx (mag mx ex) - cond_Zopp sy (mag my ey))
      with ((cond_Zopp sx (Zpos (fst (shl_align mx ex ez)))
             - cond_Zopp sy (Zpos (fst (shl_align my ey ez)))) * 2 ^ (ez + 1127)).
    + apply binary_normalize_rounds. unfold ez. lia.
    + rewrite <- (shl_align_value mx ex ez), <- (shl_align_value my ey ez)
        by (unfold ez; lia).
      destruct sx, sy; cbn [cond_Zopp]; ring.
Qed.

Lemma Prim2SF_half : Prim2SF 0.5 = SFhalf.
Proof. reflexivity. Qed.

Lemma dg_le_53 (m : positive) : Zpos m < 2 ^ 53 -> dg m <= 53.
Proof.
  intros H. pose proof (digits2_bounds m). pose proof (dg_pos m).
  destruct (Z.le_gt_cases (dg m) 53) as [|Hgt]; [assumption|].
  pose proof (pow2_le 53 (dg m - 1) ltac:(lia)). lia.
Qed.

Lemma dg_mul_2p52 (m : positive) : dg (4503599627370496 * m) = dg m + 52.
Proof.
  pose proof (digits2_bounds m) as B. pose proof (dg_pos m).
  apply dg_unique; [lia|]. rewrite Pos2Z.inj_mul.
  replace (dg m + 52 - 1) with (52 + (dg m - 1)) by lia.
  replace (dg m + 52) with (52 + dg m) by lia.
  rewrite !pow2_add by lia. change (2 ^ 52) with 4503599627370496. lia.
Qed.

(** Halving: the exact half [X] of the value of [d] is rounded. *)
Lemma SFhalf_rounds (d : spec_float) :
  valid_binary d = true -> SFfinite d = true ->
  exists X, 2 * X = SFvalue d /\ rounds X (SF64mul SFhalf d).
Proof.
  intros Vd Fd. destruct d as [sd | sd | | sd md ed]; try discriminate;
    unfold SF64mul, SFhalf; cbn [SFmul SFvalue xorb].
  - exists 0. split; [reflexivity | apply rounds_zero].
  - pose proof (valid_finite_exponent _ _ _ Vd) as He.
    cbn [valid_binary] in Vd. apply bounded_canon in Vd. destruct Vd as [Hc Hle].
    exists (cond_Zopp sd (mag (4503599627370496 * md) (-53 + ed))). split.
    + unfold mag. rewrite Pos2Z.inj_mul.
      replace (ed + 1127) with (53 + (-53 + ed + 1127)) by lia.
      rewrite (pow2_add 53) by lia. change (2 ^ 53) with 9007199254740992.
      destruct sd; cbn [cond_Zopp]; ring.
    + apply rounds_of_mag; [apply mag_pos; lia|].
      replace (if sd then true else false) with sd by now destruct sd.
      apply binary_round_aux_rounds; [lia|].
      rewrite dg_mul_2p52. apply canon_facts in Hc. unfold fexp64. lia.
Qed.

(** ** Halving a difference *)

Lemma value_grid (x : spec_float) :
  valid_binary x = true -> exists n, SFvalue x = n * 2 ^ 53.
Proof.
  intros Hv. destruct x as [s | s | | s m e]; try (exists 0; reflexivity).
  pose proof (valid_finite_exponent _ _ _ Hv).
  exists (cond_Zopp s (Zpos m * 2 ^ (e + 1074))). cbn [SFvalue]. unfold mag.
  replace (e + 1127) with (e + 1074 + 53) by lia. rewrite pow2_add by lia.
  destruct s; cbn [cond_Zopp]; ring.
Qed.

Lemma div2_up_bounds (m : positive) :
  (1 < m)%positive ->
  Zpos m <= 2 * Zpos (Pos.div2_up m) /\ Zpos (Pos.div2_up m) < Zpos m.
Proof. destruct m; cbn [Pos.div2_up]; lia. Qed.

(** Under a positive number that is not the least one there is a binary64
    number that is at least its half. *)
Lemma half_is_covered (md : positive) (ed : Z) :
  bounded prec emax md ed = true -> 2 ^ 53 < mag md ed ->
  exists b, representable b /\ mag md ed <= 2 * b /\ b < mag md ed.
Proof.
  intros Hb Hbig. pose proof Hb as Hb'. apply bounded_canon in Hb'.
  destruct Hb' as [Hc Hle]. pose proof (canon_facts _ _ Hc) as Fc.
  destruct (Z.eq_dec ed (-1074)) as [-> | Hne].
  - assert (Hm : (1 < md)%positive).
    { unfold mag in Hbig. change (2 ^ (-1074 + 1127)) with (2 ^ 53) in Hbig.
      pose proof (pow2_pos 53 ltac:(lia)). nia. }
    destruct (div2_up_bounds md Hm) as [H1 H2].
    exists (mag (Pos.div2_up md) (-1074)). split; [|split].
    + exists (S754_finite false (Pos.div2_up md) (-1074)).
      split; [|split; reflexivity]. cbn [valid_binary]. apply bounded_canon.
      split; [|lia]. unfold canon, fexp64.
      pose proof (dg_le_53 (Pos.div2_up md)
                    ltac:(pose proof (canon_lt_2p53 _ _ Hc); lia)). lia.
    + unfold mag. change (2 ^ (-1074 + 1127)) with 9007199254740992. lia.
    + unfold mag. change (2 ^ (-1074 + 1127)) with 9007199254740992. lia.
  - exists (mag md (ed - 1)).
    assert (Hdouble : mag md ed = 2 * mag md (ed - 1)).
    { unfold mag. replace (ed + 1127) with (ed - 1 + 1127 + 1) by lia.
      rewrite pow2_S by lia. ring. }
    pose proof (mag_pos md (ed - 1) ltac:(lia)).
    split; [|lia].
    exists (S754_finite false md (ed - 1)). split; [|split; reflexivity].
    cbn [valid_binary]. apply bounded_canon. split; [|lia].
    unfold canon, fexp64. lia.
Qed.

Lemma half_step_pos (Xd Xh : Z) (d h : spec_float) :
  0 <= Xd -> (exists n, Xd = n * 2 ^ 53) ->
  rounds Xd d -> SFfinite d = true ->
  2 * Xh = SFvalue d -> rounds Xh h ->
  SFfinite h = true /\ 0 <= SFvalue h <= Xd.
Proof.
  intros Hpos [n Hn] Rd Fd Hhalf Rh.
  pose proof Rd as (Vd & Hlo & Hhi).
  assert (HD : 0 <= SFvalue d).
  { specialize (Hlo 0 representable_0 Hpos).
    destruct d; try discriminate; exact Hlo. }
  destruct (rounds_finite Xh 0 (SFvalue d) h Rh representable_0
              (representable_value d Vd Fd) ltac:(lia)) as [Fh HH].
  split; [exact Fh|]. split; [lia|].
  destruct (Z.le_gt_cases (SFvalue h) Xd) as [|Hgt]; [assumption|]. exfalso.
  pose proof Rh as (Vh & Hlo' & Hhi').
  assert (HDH : SFvalue d = SFvalue h).
  { specialize (Hhi (SFvalue h) (representable_value h Vh Fh) ltac:(lia)).
    destruct d; try discriminate; cbn [at_most] in Hhi; lia. }
  assert (Hbig : 2 ^ 53 < SFvalue d).
  { change (2 ^ 53) with 9007199254740992 in *.
    destruct (Z.eq_dec n 0) as [-> | Hn0]; [|nia].
    specialize (Hhi 0 representable_0 ltac:(lia)).
    destruct d; try discriminate; cbn [at_most] in Hhi; lia. }
  destruct d as [sd | sd | | sd md ed]; try discriminate Fd.
  - cbn [SFvalue] in Hbig. change (2 ^ 53) with 9007199254740992 in Hbig. lia.
  - cbn [valid_binary] in Vd. pose proof (bounded_mag_pos md ed Vd).
    destruct sd; cbn [SFvalue cond_Zopp] in *; [lia|].
    destruct (half_is_covered md ed Vd Hbig) as (b & Rb & Hb1 & Hb2).
    specialize (Hhi' b Rb ltac:(lia)).
    destruct h; try discriminate Fh; cbn [at_most SFvalue] in *; lia.
Qed.

(** *** Symmetry under negation *)

Lemma SFvalue_opp (x : spec_float) : SFvalue (SFopp x) = - SFvalue x.
Proof. destruct x as [s | s | | s m e]; cbn; try lia. destruct s; cbn; lia. Qed.

Lemma SFfinite_opp (x : spec_float) : SFfinite (SFopp x) = SFfinite x.
Proof. now destruct x. Qed.

Lemma valid_opp (x : spec_float) : valid_binary (SFopp x) = valid_binary x.
Proof. now destruct x. Qed.

Lemma representable_opp (a : Z) : representable a -> representable (- a).
Proof.
  intros [x (Hv & Hf & Ha)]. exists (SFopp x).
  now rewrite valid_opp, SFfinite_opp, SFvalue_opp, Ha.
Qed.

Lemma rounds_opp (X : Z) (r : spec_float) : rounds X r -> rounds (- X) (SFopp r).
Proof.
  intros (Hv & Hlo & Hhi). split; [now rewrite valid_opp|].
  split; intros a Ra Hle.
  - specialize (Hhi (- a) (representable_opp a Ra) ltac:(lia)).
    destruct r as [s | s | | s m e]; cbn [at_least at_most SFopp] in *;
      rewrite ?SFvalue_opp; try contradiction.
    + cbn in *. lia.
    + now subst s.
    + change (SFvalue (S754_finite (negb s) m e))
        with (SFvalue (SFopp (S754_finite s m e))).
      rewrite SFvalue_opp. lia.
  - specialize (Hlo (- a) (representable_opp a Ra) ltac:(lia)).
    destruct r as [s | s | | s m e]; cbn [at_least at_most SFopp] in *;
      rewrite ?SFvalue_opp; try contradiction.
    + cbn in *. lia.
    + now subst s.
    + change (SFvalue (S754_finite (negb s) m e))
        with (SFvalue (SFopp (S754_finite s m e))).
      rewrite SFvalue_opp. lia.
Qed.

Lemma half_step_neg (Xd Xh : Z) (d h : spec_float) :
  Xd <= 0 -> (exists n, Xd = n * 2 ^ 53) ->
  rounds Xd d -> SFfinite d = true ->
  2 * Xh = SFvalue d -> rounds Xh h ->
  SFfinite h = true /\ Xd <= SFvalue h <= 0.
Proof.
  intros Hneg [n Hn] Rd Fd Hhalf Rh.
  destruct (half_step_pos (- Xd) (- Xh) (SFopp d) (SFopp h)) as [Fh HH].
  - lia.
  - exists (- n). lia.
  - now apply rounds_opp.
  - now rewrite SFfinite_opp.
  - rewrite SFvalue_opp. lia.
  - now apply rounds_opp.
  - rewrite SFfinite_opp in Fh. rewrite SFvalue_opp in HH. split; [exact Fh | lia].
Qed.

(** ** One step of the filter, on specified numbers *)

Lemma filter_step_between (p r : spec_float) :
  valid_binary p = true -> valid_binary r = true ->
  SFfinite p = true -> SFfinite r = true ->
  SFfinite (SF64sub r p) = true ->
  let f := SF64add p (SF64mul SFhalf (SF64sub r p)) in
  valid_binary f = true /\ SFfinite f = true
  /\ (SFvalue p <= SFvalue r -> SFvalue p <= SFvalue f <= SFvalue r)
  /\ (SFvalue r <= SFvalue p -> SFvalue r <= SFvalue f <= SFvalue p).
Proof.
  intros Vp Vr Fp Fr Fd f.
  pose proof (SFsub_rounds r p Vr Vp Fr Fp) as Rd.
  set (d := SF64sub r p) in *.
  assert (Vd : valid_binary d = true) by apply Rd.
  destruct (SFhalf_rounds d Vd Fd) as (Xh & Hhalf & Rh).
  set (h := SF64mul SFhalf d) in *.
  assert (Vh : valid_binary h = true) by apply Rh.
  assert (Hgrid : exists n, SFvalue r - SFvalue p = n * 2 ^ 53).
  { destruct (value_grid r Vr) as [nr Hr], (value_grid p Vp) as [np Hp].
    exists (nr - np). rewrite Hr, Hp. ring. }
  assert (Hpr : representable (SFvalue p)) by now apply representable_value.
  assert (Hrr : representable (SFvalue r)) by now apply representable_value.
  destruct (Z.le_ge_cases (SFvalue p) (SFvalue r)) as [Hle | Hge].
  - destruct (half_step_pos (SFvalue r - SFvalue p) Xh d h ltac:(lia) Hgrid Rd Fd
                Hhalf Rh) as [Fh HH].
    pose proof (SFadd_rounds p h Vp Vh Fp Fh) as Rf. fold f in Rf.
    destruct (rounds_finite (SFvalue p + SFvalue h) (SFvalue p) (SFvalue r) f Rf
                Hpr Hrr ltac:(lia))
      as [Ff HF].
    split; [apply Rf|]. split; [exact Ff|]. split; intros; lia.
  - destruct (half_step_neg (SFvalue r - SFvalue p) Xh d h ltac:(lia) Hgrid Rd Fd
                Hhalf Rh) as [Fh HH].
    pose proof (SFadd_rounds p h Vp Vh Fp Fh) as Rf. fold f in Rf.
    destruct (rounds_finite (SFvalue p + SFvalue h) (SFvalue r) (SFvalue p) f Rf
                Hrr Hpr ltac:(lia))
      as [Ff HF].
    split; [apply Rf|]. split; [exact Ff|]. split; intros; lia.
Qed.

(** ** Binary64 numbers *)

Lemma SFcompare_antisym (x y : spec_float) (c : comparison) :
  SFcompare x y = Some c -> SFcompare y x = Some (CompOpp c).
Proof.
  destruct x as [sx | sx | | sx mx ex], y as [sy | sy | | sy my ey];
    cbn [SFcompare]; try discriminate;
    try (intros [= <-]; repeat match goal with s : bool |- _ => destruct s end;
         reflexivity).
  intros [= <-]. f_equal.
  assert (Hm : Pos.compare_cont Eq my mx = CompOpp (Pos.compare_cont Eq mx my))
    by (symmetry; apply (Pos.compare_cont_antisym mx my Eq)).
  rewrite (Z.compare_antisym ex ey), Hm.
  destruct sx, sy; try reflexivity; destruct (ex ?= ey);
    cbn [CompOpp]; rewrite ?CompOpp_involutive; reflexivity.
Qed.

Lemma leb_refl (x : float) : is_nan x = false -> (x <=? x)%float = true.
Proof.
  rewrite is_nan_spec, leb_spec. intros H. unfold SFleb.
  now rewrite SFcompare_refl.
Qed.

Lemma not_nan_compare (x y : float) :
  is_nan x = false -> is_nan y = false ->
  exists c, SFcompare (Prim2SF x) (Prim2SF y) = Some c.
Proof.
  rewrite !is_nan_spec. destruct (Prim2SF x), (Prim2SF y); cbn; try discriminate;
    intros _ _; eexists; reflexivity.
Qed.



Lemma leb_value (x y : float) :
  is_finite x = true -> is_finite y = true ->
  (x <=? y)%float = (SFvalue (Prim2SF x) <=? SFvalue (Prim2SF y)).
Proof.
  rewrite !is_finite_spec, leb_spec. intros Hx Hy. unfold SFleb.
  rewrite (SFcompare_value _ _ (Prim2SF_valid x) (Prim2SF_valid y) Hx Hy).
  unfold Z.leb. now destruct (_ ?= _).
Qed.

Lemma eqb_value (x y : float) :
  is_finite x = true -> is_finite y = true ->
  (x =? y)%float = (SFvalue (Prim2SF x) =? SFvalue (Prim2SF y)).
Proof.
  rewrite !is_finite_spec, eqb_spec. intros Hx Hy. unfold SFeqb.
  rewrite (SFcompare_value _ _ (Prim2SF_valid x) (Prim2SF_valid y) Hx Hy).
  destruct (Z.eqb_spec (SFvalue (Prim2SF x)) (SFvalue (Prim2SF y))) as [-> | Hne].
  - now rewrite Z.compare_refl.
  - destruct (Z.compare_spec (SFvalue (Prim2SF x)) (SFvalue (Prim2SF y)));
      [contradiction | reflexivity | reflexivity].
Qed.

(** [prev + 0.5 * (r - prev)] on binary64 numbers. *)
Lemma filter_step_spec (prev r : float) :
  Prim2SF (prev + 0.5 * (r - prev))%float =
  SF64add (Prim2SF prev) (SF64mul SFhalf (SF64sub (Prim2SF r) (Prim2SF prev))).
Proof. now rewrite add_spec, mul_spec, sub_spec, Prim2SF_half. Qed.

Lemma filter_step_float_between (prev r : float) :
  is_finite prev = true -> is_finite r = true ->
  is_finite (r - prev)%float = true ->
  let f := (prev + 0.5 * (r - prev))%float in
  is_finite f = true
  /\ ((prev <=? r)%float = true -> (prev <=? f)%float = true /\ (f <=? r)%float = true)
  /\ ((r <=? prev)%float = true -> (r <=? f)%float = true /\ (f <=? prev)%float = true).
Proof.
  intros Fp Fr Fd f.
  pose proof Fp as Fp'. pose proof Fr as Fr'.
  rewrite is_finite_spec in Fp', Fr', Fd. rewrite sub_spec in Fd.
  destruct (filter_step_between (Prim2SF prev) (Prim2SF r)
              (Prim2SF_valid prev) (Prim2SF_valid r) Fp' Fr' Fd)
    as (_ & Ff & Hup & Hdown).
  rewrite <- filter_step_spec in Ff, Hup, Hdown. fold f in Ff, Hup, Hdown.
  rewrite <- is_finite_spec in Ff.
  split; [exact Ff|].
  rewrite !leb_value by assumption. rewrite !Z.leb_le. split; intros H.
  - apply Hup. exact H.
  - apply Hdown. exact H.
Qed.

(** The first turn: the filter returns the reading itself. *)
Lemma cold_start_float (r : float) :
  is_finite r = true -> ((r + 0.5 * (r - r)) =? r)%float = true.
Proof.
  intros Fr.
  destruct (filter_step_float_between r r Fr Fr) as (Ff & Hup & _).
  - rewrite is_finite_spec, sub_spec.
    pose proof Fr as Fr'. rewrite is_finite_spec in Fr'.
    destruct (Prim2SF r) as [s | s | | s m e]; try discriminate.
    + now destruct s.
    + unfold SF64sub. cbn [SFsub]. rewrite Z.sub_diag. reflexivity.
  - assert (Hrr : (r <=? r)%float = true).
    { apply leb_refl. rewrite is_nan_spec. rewrite is_finite_spec in Fr.
      now destruct (Prim2SF r). }
    destruct (Hup Hrr) as [H1 H2].
    rewrite leb_value in H1, H2 by assumption.
    rewrite eqb_value by assumption.
    apply Z.leb_le in H1, H2. apply Z.eqb_eq. lia.
Qed.


(** ** The monad and the primitives *)

Ltac st_unfold :=
  unfold bind, ret, get, modify, act, getClock, echo_poll, emit,
         set_timeLastRun, publish; cbn [fst snd obj hw].

(** ** [measureRange] *)

(** What [measureRange] returns, read off the oracles. *)
Lemma measureRange_value (s : Sys) :
  fst (measureRange s) =
  if echoAt (hw s) (necho (hw s)) && echoAt (hw s) (S (necho (hw s)))
  then ((clockAt (hw s) (3 + nclock (hw s)) - clockAt (hw s) (2 + nclock (hw s)))
        * speedOfSound / 2.0)%float
  else 0.0%float.
Proof.
  unfold measureRange. st_unfold.
  destruct (PrimFloat.ltb _ minimumInterval); cbn;
    destruct (echoAt (hw s) (necho (hw s))); cbn; try reflexivity;
    destruct (echoAt (hw s) (S (necho (hw s)))); reflexivity.
Qed.

(** What [measureRange] does to the outside, in order. *)
Lemma measureRange_trace (s : Sys) :
  trace (hw (snd (measureRange s))) =
  trace (hw s)
  ++ (if PrimFloat.ltb (interval_at s) minimumInterval
      then [DelayMsD (1000.0 * (minimumInterval - interval_at s))%float] else [])
  ++ [TriggerUsPulse true 10; EchoPoll 60]
  ++ (if echoAt (hw s) (necho (hw s)) then [EchoPoll 60] else []).
Proof.
  unfold measureRange, interval_at. st_unfold.
  destruct (PrimFloat.ltb _ minimumInterval); cbn;
    destruct (echoAt (hw s) (necho (hw s))); cbn;
    try destruct (echoAt (hw s) (S (necho (hw s)))); cbn;
    rewrite <- ?app_assoc; reflexivity.
Qed.

(** [measureRange] writes [m_timeLastRun] and nothing else in the object. *)
Lemma measureRange_obj (s : Sys) :
  obj (snd (measureRange s)) =
  mkRanger (m_range (obj s)) (m_count (obj s)) (m_run (obj s))
           (clockAt (hw s) (S (nclock (hw s)))).
Proof.
  unfold measureRange. st_unfold.
  destruct (PrimFloat.ltb _ minimumInterval); cbn;
    destruct (echoAt (hw s) (necho (hw s))); cbn;
    try destruct (echoAt (hw s) (S (necho (hw s)))); reflexivity.
Qed.

Lemma pulses_app (w : World) (es : list Event) :
  length (List.filter is_pulse (trace w ++ es)) =
  (pulses w + length (List.filter is_pulse es))%nat.
Proof. unfold pulses. now rewrite filter_app, length_app. Qed.

(** Every call of [measureRange] sends exactly one trigger pulse. *)
Lemma measureRange_pulses (s : Sys) :
  pulses (hw (snd (measureRange s))) = S (pulses (hw s)).
Proof.
  unfold pulses at 1. rewrite measureRange_trace, pulses_app.
  destruct (PrimFloat.ltb _ _), (echoAt _ _); cbn; lia.
Qed.

(** ** One turn of the worker *)

(** The loop body, with its two calls of [measureRange] spelled out. *)
Lemma worker_body_unfold (l : Locals) (s : Sys) :
  worker_body l s =
  (let m1 := measureRange s in
   let m2 := if is_outlier (firstTime l) (range l) (fst m1)
             then measureRange (snd m1) else m1 in
   (mkLocals (range l) (range l) false,
    publish (filtered (firstTime l) (m_range (obj (snd m2))) (fst m2))
            (uincr (m_count (obj (snd m2)))) (snd m2))).
Proof.
  unfold worker_body, bind at 1. cbv zeta.
  destruct (measureRange s) as [r1 s1]. cbn [fst snd].
  unfold bind at 1.
  destruct (is_outlier (firstTime l) (range l) r1).
  - destruct (measureRange s1) as [r2 s2]. reflexivity.
  - reflexivity.
Qed.

Lemma measureRange_m_range (s : Sys) :
  m_range (obj (snd (measureRange s))) = m_range (obj s).
Proof. now rewrite measureRange_obj. Qed.

Lemma measureRange_m_count (s : Sys) :
  m_count (obj (snd (measureRange s))) = m_count (obj s).
Proof. now rewrite measureRange_obj. Qed.

Lemma measureRange_m_run (s : Sys) :
  m_run (obj (snd (measureRange s))) = m_run (obj s).
Proof. now rewrite measureRange_obj. Qed.

(** The value a turn publishes: the filter applied to the committed
    reading. *)
Lemma worker_body_m_range (l : Locals) (s : Sys) :
  m_range (obj (snd (worker_body l s))) =
  filtered (firstTime l) (m_range (obj s)) (committed l s).
Proof.
  rewrite worker_body_unfold. unfold committed. cbv zeta. cbn [snd].
  destruct (is_outlier _ _ _); unfold publish; cbn [obj m_range fst snd];
    now rewrite ?measureRange_m_range.
Qed.

Lemma worker_body_m_count (l : Locals) (s : Sys) :
  m_count (obj (snd (worker_body l s))) = uincr (m_count (obj s)).
Proof.
  rewrite worker_body_unfold. cbv zeta. cbn [snd].
  destruct (is_outlier _ _ _); unfold publish; cbn [obj m_count fst snd];
    now rewrite ?measureRange_m_count.
Qed.

Lemma worker_body_m_run (l : Locals) (s : Sys) :
  m_run (obj (snd (worker_body l s))) = m_run (obj s).
Proof.
  rewrite worker_body_unfold. cbv zeta. cbn [snd].
  destruct (is_outlier _ _ _); unfold publish; cbn [obj m_run fst snd];
    now rewrite ?measureRange_m_run.
Qed.

Lemma worker_body_locals (l : Locals) (s : Sys) :
  fst (worker_body l s) = mkLocals (range l) (range l) false.
Proof. now rewrite worker_body_unfold. Qed.

Lemma worker_body_hw (l : Locals) (s : Sys) :
  hw (snd (worker_body l s)) =
  if is_outlier (firstTime l) (range l) (fst (measureRange s))
  then hw (snd (measureRange (snd (measureRange s))))
  else hw (snd (measureRange s)).
Proof.
  rewrite worker_body_unfold. cbv zeta. cbn [snd].
  now destruct (is_outlier _ _ _).
Qed.

(** C2: a turn whose raw reading is classified as an outlier measures
    exactly once more, two trigger pulses in all, and hands the second
    reading to the filter whatever its value; any other turn measures once
    and hands over the raw reading.  No turn sends more than two pulses. *)
Theorem retry_exactly_once (l : Locals) (s : Sys) :
  let raw := fst (measureRange s) in
  let retry := fst (measureRange (snd (measureRange s))) in
  let s' := snd (worker_body l s) in
  (if is_outlier (firstTime l) (range l) raw
   then pulses (hw s') = (pulses (hw s) + 2)%nat
        /\ committed l s = retry
        /\ m_range (obj s') = filtered (firstTime l) (m_range (obj s)) retry
   else pulses (hw s') = (pulses (hw s) + 1)%nat
        /\ committed l s = raw
        /\ m_range (obj s') = filtered (firstTime l) (m_range (obj s)) raw)
  /\ (pulses (hw s') <= pulses (hw s) + 2)%nat.
Proof.
  cbv zeta. rewrite worker_body_m_range, worker_body_hw. unfold committed.
  cbv zeta.
  destruct (is_outlier _ _ _); rewrite ?measureRange_pulses; repeat split; lia.
Qed.

(** ** The loop *)

Lemma worker_loop_stopped (n : nat) (l : Locals) (s : Sys) :
  m_run (obj s) = false -> worker_loop n l s = (l, s).
Proof.
  intros Hrun. destruct n; [reflexivity|].
  cbn [worker_loop]. unfold bind at 1, get. now rewrite Hrun.
Qed.

Lemma worker_loop_S (n : nat) (l : Locals) (s : Sys) :
  m_run (obj s) = true ->
  worker_loop (S n) l s =
  worker_loop n (fst (worker_body l s)) (snd (worker_body l s)).
Proof.
  intros Hrun. cbn [worker_loop]. unfold bind at 1, get. rewrite Hrun.
  unfold bind. now destruct (worker_body l s).
Qed.

Lemma worker_loop_m_run (n : nat) (l : Locals) (s : Sys) :
  m_run (obj (snd (worker_loop n l s))) = m_run (obj s).
Proof.
  revert l s. induction n as [|n IH]; intros l s; [reflexivity|].
  destruct (m_run (obj s)) eqn:Hrun.
  - rewrite worker_loop_S, IH, worker_body_m_run by assumption. assumption.
  - rewrite worker_loop_stopped by assumption. assumption.
Qed.

(** Turns add up: running [a] turns and then [b] is running [a + b]. *)
Lemma worker_loop_add (a b : nat) (l : Locals) (s : Sys) :
  worker_loop (a + b) l s =
  worker_loop b (fst (worker_loop a l s)) (snd (worker_loop a l s)).
Proof.
  revert l s. induction a as [|a IH]; intros l s; [reflexivity|].
  destruct (m_run (obj s)) eqn:Hrun.
  - cbn [Nat.add]. rewrite !worker_loop_S by assumption. apply IH.
  - rewrite (worker_loop_stopped (S a + b)), (worker_loop_stopped (S a))
      by assumption.
    cbn [fst snd]. now rewrite worker_loop_stopped.
Qed.

Lemma worker_turns_add (a b : nat) (t : Threads) :
  worker_turns (a + b) t = worker_turns b (worker_turns a t).
Proof.
  unfold worker_turns. rewrite worker_loop_add.
  destruct (worker_loop a (wl t) (shared t)) as [l s]. reflexivity.
Qed.

Lemma worker_turns_0 (t : Threads) : worker_turns 0 t = t.
Proof. now destruct t. Qed.

(** One more turn, seen from the end. *)
Lemma worker_turns_S (n : nat) (t : Threads) :
  m_run (obj (shared t)) = true ->
  worker_turns (S n) t =
  let t' := worker_turns n t in
  mkThreads (fst (worker_body (wl t') (shared t')))
            (snd (worker_body (wl t') (shared t'))).
Proof.
  intros Hrun. replace (S n) with (n + 1)%nat by lia.
  rewrite worker_turns_add. cbv zeta.
  assert (Hr : m_run (obj (shared (worker_turns n t))) = true).
  { unfold worker_turns.
    pose proof (worker_loop_m_run n (wl t) (shared t)) as H.
    destruct (worker_loop n (wl t) (shared t)). cbn in *. congruence. }
  unfold worker_turns at 1. rewrite worker_loop_S by assumption.
  reflexivity.
Qed.

(** The threads after [n] turns are the worker run for [n] turns on the
    new object. *)
Lemma worker_turns_start (n : nat) (w : World) :
  worker n (Ranger_new w) =
  (wl (worker_turns n (start w)), shared (worker_turns n (start w))).
Proof.
  unfold worker, worker_turns, start. cbn [wl shared].
  now destruct (worker_loop n worker_locals (Ranger_new w)).
Qed.

Lemma start_m_run (w : World) : m_run (obj (shared (start w))) = true.
Proof. reflexivity. Qed.

(** The counter after [n] turns of a running worker. *)
Lemma count_after_turns (n : nat) (t : Threads) :
  m_run (obj (shared t)) = true ->
  0 <= m_count (obj (shared t)) < UINT_MOD ->
  m_count (obj (shared (worker_turns n t))) =
  (m_count (obj (shared t)) + Z.of_nat n) mod UINT_MOD.
Proof.
  intros Hrun Hc. induction n as [|n IH].
  - rewrite worker_turns_0, Z.add_0_r, Z.mod_small; trivial.
  - rewrite worker_turns_S by assumption. cbv zeta. cbn [shared].
    rewrite worker_body_m_count, IH. unfold uincr.
    rewrite Zplus_mod_idemp_l. f_equal. lia.
Qed.

Lemma count_from_start (n : nat) (w : World) :
  m_count (obj (shared (worker_turns n (start w)))) = Z.of_nat n mod UINT_MOD.
Proof.
  rewrite count_after_turns; [reflexivity | reflexivity | ].
  cbn. unfold UINT_MOD. lia.
Qed.

(** After its first turn the worker's own variables never change again:
    the outer [range], and with it [oldRange], is 0.0 for ever. *)
Lemma worker_locals_after (n : nat) (w : World) :
  wl (worker_turns (S n) (start w)) = mkLocals 0.0%float 0.0%float false.
Proof.
  induction n as [|n IH].
  - rewrite worker_turns_S by apply start_m_run. cbv zeta. cbn [wl].
    rewrite worker_body_locals, worker_turns_0. reflexivity.
  - rewrite worker_turns_S by apply start_m_run. cbv zeta. cbn [wl].
    rewrite worker_body_locals, IH. reflexivity.
Qed.

(** C1: the test the code makes in any turn after the first.  [oldRange]
    is 0.0 there, so a reading is classified by its distance from zero and
    not from the reading of the turn before.  In [steady_world] the first
    two raw readings are the same double, about 1.33 m: by the claim the
    second is no outlier, yet the code classifies it as one and measures
    again. *)
Theorem same_reading_is_retried :
  let r := (0.0078125 * speedOfSound / 2.0)%float in
  let t1 := worker_turns 1 (start steady_world) in
  let t2 := worker_turns 2 (start steady_world) in
  fst (measureRange (shared (start steady_world))) = r
  /\ fst (measureRange (shared t1)) = r
  /\ outlier_spec false r r = false
  /\ is_outlier (firstTime (wl t1)) (range (wl t1)) r = true
  /\ pulses (hw (shared t1)) = 1%nat
  /\ pulses (hw (shared t2)) = 3%nat.
Proof. vm_compute. repeat split. Qed.

(** The code's test, in every turn after the first, whatever came before. *)
Lemma later_turns_compare_with_zero (n : nat) (w : World) (raw : double) :
  let t := worker_turns (S n) (start w) in
  is_outlier (firstTime (wl t)) (range (wl t)) raw =
  gtb (fabs (raw - 0.0)%float) 0.01%float || PrimFloat.ltb raw 0.001%float.
Proof. cbv zeta. rewrite worker_locals_after. reflexivity. Qed.

(** ** The counter and [ready()] *)

Lemma accessors_read_only (s : Sys) :
  snd (getRange s) = s /\ snd (getCount s) = s /\ snd (ready s) = s.
Proof. repeat split. Qed.

Lemma ready_after_turns (n : nat) (w : World) :
  fst (ready (shared (worker_turns n (start w)))) =
  negb (Z.of_nat n mod UINT_MOD =? 0).
Proof.
  unfold ready, bind, get, ret. cbn [fst]. rewrite count_from_start.
  pose proof (Z.mod_pos_bound (Z.of_nat n) UINT_MOD eq_refl).
  destruct (Z.eqb_spec (Z.of_nat n mod UINT_MOD) 0) as [-> | Hne];
    [reflexivity|]. cbn [negb]. apply Z.ltb_lt. lia.
Qed.

(** ** [initialise] *)

Lemma turns_before_idle (j : nat) : turns_before (fun _ => 0%nat) j = 0%nat.
Proof. induction j as [|j IH]; cbn; [reflexivity | now rewrite IH]. Qed.

(** What the [for] loop of [initialise] leaves behind.  [t0] is the state
    in which [initialise] was entered and [j] the number of calls of
    [ready()] made so far. *)
Lemma initialise_for_spec (sched : nat -> nat) (t0 : Threads) (left : nat) :
  forall (j : nat) (zs : list Z) (t : Threads),
    t = worker_turns (turns_before sched j) t0 ->
    let '(j', zs', t') := initialise_for left sched j zs t in
    exists k : nat,
      (k <= left)%nat
      /\ zs' = zs ++ repeat 50 k
      /\ j' = (j + k + (if (k <? left)%nat then 1 else 0))%nat
      /\ t' = worker_turns (turns_before sched j') t0
      /\ (forall i, (i < k)%nat ->
            fst (ready (shared (worker_turns (turns_before sched (S (j + i))) t0)))
            = false)
      /\ ((k < left)%nat ->
            fst (ready (shared (worker_turns (turns_before sched (S (j + k))) t0)))
            = true).
Proof.
  induction left as [|left IH]; intros j zs t Ht.
  - cbn [initialise_for]. exists 0%nat. cbn [repeat Nat.ltb Nat.leb].
    rewrite app_nil_r, !Nat.add_0_r. repeat split; trivial; lia.
  - cbn [initialise_for]. cbv zeta.
    assert (Ht1 : worker_turns (sched j) t = worker_turns (turns_before sched (S j)) t0).
    { cbn [turns_before]. rewrite worker_turns_add. now subst t. }
    destruct (fst (ready (shared (worker_turns (sched j) t)))) eqn:Hr; cbn [negb].
    + exists 0%nat. cbn [repeat]. rewrite app_nil_r, !Nat.add_0_r.
      replace (0 <? S left)%nat with true by reflexivity.
      repeat split; try lia.
      * assumption.
      * intros _. rewrite <- Ht1. assumption.
    + specialize (IH (S j) (zs ++ [50]) _ Ht1).
      destruct (initialise_for left sched (S j) (zs ++ [50]) _) as [[j' zs'] t'].
      destruct IH as (k & Hk & Hzs & Hj & Ht' & Hbefore & Hstop).
      exists (S k). repeat split.
      * lia.
      * rewrite Hzs, <- app_assoc. reflexivity.
      * rewrite Hj. change (S k <? S left)%nat with (k <? left)%nat. lia.
      * assumption.
      * intros i Hi. destruct i as [|i].
        -- rewrite Nat.add_0_r, <- Ht1. assumption.
        -- replace (j + S i)%nat with (S j + i)%nat by lia. apply Hbefore. lia.
      * intros Hlt. replace (j + S k)%nat with (S j + k)%nat by lia.
        apply Hstop. lia.
Qed.

(** [initialise], seen from the caller.  [k] is the number of sleeps. *)
Lemma initialise_run (sched : nat -> nat) (t0 : Threads) :
  let run := initialise sched t0 in
  let k := length (sleeps run) in
  sleeps run = repeat 50 k
  /\ (k <= 10)%nat
  /\ polls run = (k + (if (k <? 10)%nat then 2 else 1))%nat
  /\ (forall i, (i < k)%nat ->
        fst (ready (shared (worker_turns (turns_before sched (S i)) t0))) = false)
  /\ ((k < 10)%nat ->
        fst (ready (shared (worker_turns (turns_before sched (S k)) t0))) = true)
  /\ final run = worker_turns (turns_before sched (polls run)) t0
  /\ answer run = fst (ready (shared (final run))).
Proof.
  cbv zeta. unfold initialise.
  pose proof (initialise_for_spec sched t0 10 0 [] t0) as H.
  cbn [turns_before] in H. rewrite worker_turns_0 in H. specialize (H eq_refl).
  destruct (initialise_for 10 sched 0 [] t0) as [[j zs] t1].
  destruct H as (k & Hk & Hzs & Hj & Ht1 & Hbefore & Hstop).
  cbn [sleeps polls final answer].
  cbn [app] in Hzs. subst zs. rewrite repeat_length.
  repeat split; trivial.
  - rewrite Hj. destruct (k <? 10)%nat; lia.
  - cbn [turns_before]. rewrite worker_turns_add. now rewrite <- Ht1.
Qed.

(** ** The claims about the counter, [ready()] and [initialise()] *)

(** C7, as the code has it: the counter starts at 0; every completed turn
    of the worker, outlier or not, retry or not, sets it to
    [(count + 1) mod 2^32], which is [count + 1] unless the counter stood at
    its largest value; after [n] turns it is [n mod 2^32]; [measureRange],
    the accessors, the destructor and the caller's side of [initialise]
    leave it alone. *)
Theorem count_steps_by_one_modulo :
  (forall w, m_count (obj (Ranger_new w)) = 0)
  /\ (forall l s, m_count (obj (snd (worker_body l s))) =
                  (m_count (obj s) + 1) mod 2 ^ 32)
  /\ (forall l s, 0 <= m_count (obj s) < 2 ^ 32 - 1 ->
                  m_count (obj (snd (worker_body l s))) = m_count (obj s) + 1)
  /\ (forall n w, m_count (obj (shared (worker_turns n (start w)))) =
                  Z.of_nat n mod 2 ^ 32)
  /\ (forall s, m_count (obj (snd (measureRange s))) = m_count (obj s))
  /\ (forall s, snd (getRange s) = s /\ snd (getCount s) = s /\ snd (ready s) = s)
  /\ (forall s, m_count (obj (snd (Ranger_delete s))) = m_count (obj s))
  /\ (forall sched t, final (initialise sched t) =
                      worker_turns (turns_before sched (polls (initialise sched t))) t).
Proof.
  repeat split.
  - intros l s. apply worker_body_m_count.
  - intros l s Hc. rewrite worker_body_m_count. unfold uincr, UINT_MOD.
    apply Z.mod_small. lia.
  - intros n w. apply count_from_start.
  - intros s. apply measureRange_m_count.
  - intros sched t. apply (initialise_run sched t).
Qed.

(** C7 at a concrete input: the first turn of a new sensor. *)
Lemma count_steps_by_one_modulo_witness :
  m_count (obj (Ranger_new silent_world)) = 0
  /\ m_count (obj (snd (worker_body worker_locals (Ranger_new silent_world)))) = 0 + 1.
Proof.
  split; [reflexivity|].
  destruct count_steps_by_one_modulo as (_ & _ & Hstep & _).
  apply (Hstep worker_locals (Ranger_new silent_world)). cbn. lia.
Defined.

(** C7, where it fails: the turn after the 4294967295th takes the counter
    of a running sensor from 4294967295 down to 0. *)
Lemma count_wraps_to_zero :
  m_count (obj (shared (worker_turns (Z.to_nat 4294967295) (start silent_world))))
  = 4294967295
  /\ m_count (obj (shared (worker_turns (S (Z.to_nat 4294967295)) (start silent_world))))
     = 0.
Proof.
  rewrite !count_from_start, Nat2Z.inj_succ, Z2Nat.id by lia.
  split; reflexivity.
Qed.

(** C8, as the code has it: [ready()] answers [count > 0] and changes
    nothing; it is false before the first turn completes, and after [n]
    turns it is true exactly when [n] is not a multiple of 2^32, so it is
    true after each of the first 2^32 - 1 turns. *)
Theorem ready_iff_count_positive :
  (forall s, ready s = (0 <? m_count (obj s), s))
  /\ (forall w, fst (ready (Ranger_new w)) = false)
  /\ (forall n w, fst (ready (shared (worker_turns n (start w)))) =
                  negb (Z.of_nat n mod 2 ^ 32 =? 0))
  /\ (forall n w, 1 <= Z.of_nat n < 2 ^ 32 ->
                  fst (ready (shared (worker_turns n (start w)))) = true).
Proof.
  repeat split.
  - intros n w. apply ready_after_turns.
  - intros n w Hn. rewrite ready_after_turns. unfold UINT_MOD.
    rewrite Z.mod_small by lia.
    destruct (Z.eqb_spec (Z.of_nat n) 0); [lia | reflexivity].
Qed.

(** C8 at a concrete input: after the first turn. *)
Lemma ready_iff_count_positive_witness :
  fst (ready (Ranger_new silent_world)) = false
  /\ fst (ready (shared (worker_turns 1 (start silent_world)))) = true.
Proof.
  destruct ready_iff_count_positive as (_ & Hnew & _ & Hlater).
  split; [apply Hnew | apply Hlater; cbn; lia].
Defined.

(** C8, the defect: the comment of [ready()] (line 75) promises true if at
    least one range measurement has been taken, and the claim that it stays
    true for ever.  [ready()] is true after the first turn and false again
    after the 2^32-th, when [m_count++] has wrapped the counter to 0. *)
Lemma ready_false_again :
  fst (ready (shared (worker_turns 1 (start silent_world)))) = true
  /\ fst (ready (shared (worker_turns (Z.to_nat 4294967296) (start silent_world))))
     = false.
Proof.
  rewrite !ready_after_turns, Z2Nat.id by lia. split; reflexivity.
Qed.

(** C9, as the code has it.  [initialise] is entered on a sensor that has
    completed [n0] turns; [sched] says how many turns the worker completes
    before each of the caller's calls of [ready()].  The caller sleeps [k]
    times, 50 ms each, [k <= 10]; every call of [ready()] before a sleep
    answered false; when [k < 10] the call after the last sleep answered
    true and the loop ended there; the sensor is then in the state the
    worker alone has brought it to; the answer is [ready()] at that point,
    which is true exactly when the number [N] of turns completed by then is
    not a multiple of 2^32: for [N < 2^32], exactly when at least one
    measurement has arrived. *)
Theorem initialise_polls_until_ready (sched : nat -> nat) (w : World) (n0 : nat) :
  let t0 := worker_turns n0 (start w) in
  let run := initialise sched t0 in
  let k := length (sleeps run) in
  let N := (n0 + turns_before sched (polls run))%nat in
  sleeps run = repeat 50 k
  /\ (k <= 10)%nat
  /\ polls run = (k + (if (k <? 10)%nat then 2 else 1))%nat
  /\ (forall i, (i < k)%nat ->
        fst (ready (shared (worker_turns (turns_before sched (S i)) t0))) = false)
  /\ ((k < 10)%nat ->
        fst (ready (shared (worker_turns (turns_before sched (S k)) t0))) = true)
  /\ final run = worker_turns N (start w)
  /\ answer run = negb (Z.of_nat N mod 2 ^ 32 =? 0)
  /\ (Z.of_nat N < 2 ^ 32 -> (answer run = true <-> (1 <= N)%nat)).
Proof.
  cbv zeta.
  destruct (initialise_run sched (worker_turns n0 (start w)))
    as (Hz & Hk & Hp & Hbefore & Hstop & Hfinal & Hanswer).
  rewrite <- worker_turns_add in Hfinal.
  assert (Ha : answer (initialise sched (worker_turns n0 (start w))) =
               negb (Z.of_nat (n0 + turns_before sched
                       (polls (initialise sched (worker_turns n0 (start w)))))
                     mod 2 ^ 32 =? 0)).
  { rewrite Hanswer, Hfinal. apply ready_after_turns. }
  repeat split; trivial.
  - rewrite Ha, Z.mod_small by lia. intros Hans.
    destruct (Z.eqb_spec (Z.of_nat (n0 + turns_before sched
                (polls (initialise sched (worker_turns n0 (start w)))))) 0);
      [discriminate | lia].
  - rewrite Ha, Z.mod_small by lia. intros Hans.
    destruct (Z.eqb_spec (Z.of_nat (n0 + turns_before sched
                (polls (initialise sched (worker_turns n0 (start w)))))) 0);
      [lia | reflexivity].
Qed.

(** C9 at a concrete input: a new sensor whose worker completes one turn
    before each call of [ready()]; the caller does not sleep at all. *)
Lemma initialise_polls_until_ready_witness :
  answer (initialise (fun _ => 1%nat) (worker_turns 0 (start silent_world))) = true
  /\ sleeps (initialise (fun _ => 1%nat) (worker_turns 0 (start silent_world))) = [].
Proof.
  assert (Hp : polls (initialise (fun _ => 1%nat)
                                 (worker_turns 0 (start silent_world))) = 2%nat)
    by (vm_compute; reflexivity).
  destruct (initialise_polls_until_ready (fun _ => 1%nat) silent_world 0)
    as (_ & _ & _ & _ & _ & _ & _ & Hiff).
  split; [|vm_compute; reflexivity].
  apply Hiff; rewrite Hp; cbn; lia.
Defined.

(** C9, the defect: [initialise] waits for the first range measurement and
    answers whether it got one (comments of lines 63 and 67).  On a sensor
    that has completed 2^32 measurements, and completes no other while the
    caller polls, it sleeps ten times and answers false: the counter has
    wrapped to 0, and [ready()] takes it for a sensor that has not measured
    yet. *)
Lemma initialise_false_after_wrap :
  answer (initialise (fun _ => 0%nat)
                     (worker_turns (Z.to_nat 4294967296) (start silent_world)))
  = false
  /\ length (sleeps (initialise (fun _ => 0%nat)
                     (worker_turns (Z.to_nat 4294967296) (start silent_world))))
     = 10%nat.
Proof.
  destruct (initialise_run (fun _ => 0%nat)
              (worker_turns (Z.to_nat 4294967296) (start silent_world)))
    as (Hz & Hk & Hp & Hbefore & Hstop & Hfinal & Hanswer).
  rewrite turns_before_idle, worker_turns_0 in Hfinal.
  assert (Hidle : fst (ready (shared (worker_turns (Z.to_nat 4294967296)
                                        (start silent_world)))) = false).
  { rewrite ready_after_turns, Z2Nat.id by lia. reflexivity. }
  split.
  - rewrite Hanswer, Hfinal. exact Hidle.
  - destruct (Nat.lt_ge_cases
                (length (sleeps (initialise (fun _ => 0%nat)
                   (worker_turns (Z.to_nat 4294967296) (start silent_world))))) 10)
      as [Hlt | Hge]; [|lia].
    specialize (Hstop Hlt).
    rewrite turns_before_idle, worker_turns_0 in Hstop. congruence.
Qed.

(** ** Failed measurements *)

(** C5: [measureRange] waits for the rising edge and, only if that came,
    for the falling edge, 60 ms each; it returns 0.0 when either wait times
    out and [(fall - rise) * 340.27 / 2.0] otherwise, [rise] and [fall]
    being the clock readings taken after the two edges. *)
Theorem measureRange_returns (s : Sys) :
  let w := hw s in
  let rising := echoAt w (necho w) in
  let falling := echoAt w (S (necho w)) in
  let rise := clockAt w (2 + nclock w) in
  let fall := clockAt w (3 + nclock w) in
  fst (measureRange s) =
    (if rising && falling then ((fall - rise) * 340.27 / 2.0)%float else 0.0%float)
  /\ trace (hw (snd (measureRange s))) =
     trace w
     ++ (if PrimFloat.ltb (interval_at s) 0.2%float
         then [DelayMsD (1000.0 * (0.2 - interval_at s))%float] else [])
     ++ [TriggerUsPulse true 10; EchoPoll 60]
     ++ (if rising then [EchoPoll 60] else [])
  /\ necho (hw (snd (measureRange s))) = (necho w + (if rising then 2 else 1))%nat.
Proof.
  cbv zeta. split; [apply measureRange_value | split; [apply measureRange_trace|]].
  unfold measureRange. st_unfold.
  destruct (PrimFloat.ltb _ minimumInterval); cbn;
    destruct (echoAt (hw s) (necho (hw s))); cbn;
    try destruct (echoAt (hw s) (S (necho (hw s)))); cbn; lia.
Qed.

(** C10: when the raw measurement and the retry both return 0.0, the turn
    still pushes 0.0 through the filter and counts; on the first turn of a
    new sensor this makes [ready()] true and [getRange()] exactly 0.0. *)
Theorem double_failure_is_committed (l : Locals) (s : Sys) :
  fst (measureRange s) = 0.0%float ->
  fst (measureRange (snd (measureRange s))) = 0.0%float ->
  let s' := snd (worker_body l s) in
  committed l s = 0.0%float
  /\ pulses (hw s') = (pulses (hw s) + 2)%nat
  /\ m_range (obj s') = filtered (firstTime l) (m_range (obj s)) 0.0%float
  /\ m_count (obj s') = (m_count (obj s) + 1) mod 2 ^ 32
  /\ (firstTime l = true -> m_count (obj s) = 0 ->
      fst (ready s') = true /\ fst (getRange s') = 0.0%float
      /\ fst (getCount s') = 1).
Proof.
  intros H1 H2. cbv zeta.
  assert (Hout : is_outlier (firstTime l) (range l) 0.0%float = true).
  { unfold is_outlier. apply orb_true_r. }
  assert (Hc : committed l s = 0.0%float).
  { unfold committed. cbv zeta. now rewrite H1, Hout. }
  repeat split.
  - exact Hc.
  - rewrite worker_body_hw, H1, Hout, !measureRange_pulses. lia.
  - now rewrite worker_body_m_range, Hc.
  - apply worker_body_m_count.
  - unfold ready, bind, get, ret. cbn [fst]. rewrite worker_body_m_count.
    rewrite H0. reflexivity.
  - unfold getRange, bind, get, ret. cbn [fst].
    rewrite worker_body_m_range, Hc, H. reflexivity.
  - unfold getCount, bind, get, ret. cbn [fst]. rewrite worker_body_m_count.
    rewrite H0. reflexivity.
Qed.

(** C10 at a concrete input: a new sensor in a world without echoes. *)
Lemma double_failure_is_committed_witness :
  fst (measureRange (Ranger_new silent_world)) = 0.0%float
  /\ fst (measureRange (snd (measureRange (Ranger_new silent_world)))) = 0.0%float
  /\ fst (ready (snd (worker_body worker_locals (Ranger_new silent_world)))) = true
  /\ fst (getRange (snd (worker_body worker_locals (Ranger_new silent_world))))
     = 0.0%float.
Proof.
  split; [reflexivity | split; [reflexivity|]].
  pose proof (double_failure_is_committed worker_locals (Ranger_new silent_world)
                eq_refl eq_refl) as H.
  cbv zeta in H. destruct H as (_ & _ & _ & _ & H).
  destruct (H eq_refl eq_refl) as (Hr & Hg & _). split; assumption.
Defined.

(** ** The filter *)

Lemma filtered_first (m r : double) : filtered true m r = (r + 0.5 * (r - r))%float.
Proof. reflexivity. Qed.

Lemma filtered_later (m r : double) : filtered false m r = (m + 0.5 * (r - m))%float.
Proof. reflexivity. Qed.

(** On the first turn a finite reading comes out of the filter bit for
    bit, except that -0.0 comes out as +0.0. *)
Lemma cold_start_exact (r : float) :
  is_finite r = true ->
  (r + 0.5 * (r - r))%float = r
  \/ (r = neg_zero /\ (r + 0.5 * (r - r))%float = zero).
Proof.
  intros Fr. rewrite is_finite_spec in Fr.
  assert (Hs : Prim2SF (r + 0.5 * (r - r))%float =
               SF64add (Prim2SF r) (S754_zero false)).
  { rewrite filter_step_spec. f_equal.
    destruct (Prim2SF r) as [s | s | | s m e]; try discriminate.
    - now destruct s.
    - unfold SF64sub. cbn [SFsub]. rewrite Z.sub_diag. reflexivity. }
  destruct (Prim2SF r) as [s | s | | s m e] eqn:Er; try discriminate.
  - destruct s.
    + right. split; apply Prim2SF_inj; [now rewrite Er | now rewrite Hs].
    + left. apply Prim2SF_inj. now rewrite Hs, Er.
  - left. apply Prim2SF_inj. now rewrite Hs, Er.
Qed.

(** What one turn publishes.  [c] is the reading the turn commits and
    [prev] the value published before. *)
Lemma turn_publishes (l : Locals) (s : Sys) :
  let c := committed l s in
  let prev := m_range (obj s) in
  let new := m_range (obj (snd (worker_body l s))) in
  (firstTime l = true -> is_finite c = true ->
     (new =? c)%float = true
     /\ (new = c \/ (c = neg_zero /\ new = zero)))
  /\ (firstTime l = false -> new = (prev + 0.5 * (c - prev))%float)
  /\ (firstTime l = false ->
      is_finite prev = true -> is_finite c = true ->
      is_finite (c - prev)%float = true ->
      is_finite new = true
      /\ ((prev <=? c)%float = true ->
          (prev <=? new)%float = true /\ (new <=? c)%float = true)
      /\ ((c <=? prev)%float = true ->
          (c <=? new)%float = true /\ (new <=? prev)%float = true)).
Proof.
  cbv zeta. rewrite worker_body_m_range. split; [|split].
  - intros -> Fc. rewrite filtered_first.
    split; [now apply cold_start_float | now apply cold_start_exact].
  - intros ->. apply filtered_later.
  - intros -> Fp Fc Fd. rewrite filtered_later.
    now apply filter_step_float_between.
Qed.

(** C3, as the code has it.  After [n] turns of a new sensor, let [prev]
    be the published value and [c] the reading that turn [n + 1] commits.
    The first turn publishes a finite [c] as it is (bit for bit, except
    that -0.0 becomes +0.0).  Every later turn publishes the double
    [prev + 0.5 * (c - prev)], each operation rounded to nearest; when
    [prev], [c] and [c - prev] are finite, that value is finite and lies
    between [prev] and [c], ends included. *)
Theorem published_value (w : World) (n : nat) :
  let t := worker_turns n (start w) in
  let c := committed (wl t) (shared t) in
  let prev := m_range (obj (shared t)) in
  let new := m_range (obj (shared (worker_turns (S n) (start w)))) in
  (n = 0%nat -> is_finite c = true ->
     (new =? c)%float = true
     /\ (new = c \/ (c = neg_zero /\ new = zero)))
  /\ ((1 <= n)%nat -> new = (prev + 0.5 * (c - prev))%float)
  /\ ((1 <= n)%nat ->
      is_finite prev = true -> is_finite c = true ->
      is_finite (c - prev)%float = true ->
      is_finite new = true
      /\ ((prev <=? c)%float = true ->
          (prev <=? new)%float = true /\ (new <=? c)%float = true)
      /\ ((c <=? prev)%float = true ->
          (c <=? new)%float = true /\ (new <=? prev)%float = true)).
Proof.
  cbv zeta. rewrite (worker_turns_S n) by apply start_m_run.
  cbv zeta. cbn [shared].
  destruct (turn_publishes (wl (worker_turns n (start w)))
                           (shared (worker_turns n (start w))))
    as (Hfirst & Heq & Hbetween).
  split; [|split].
  - intros ->. rewrite worker_turns_0 in *. now apply Hfirst.
  - intros Hn. destruct n as [|n]; [lia|]. apply Heq.
    now rewrite worker_locals_after.
  - intros Hn. destruct n as [|n]; [lia|]. apply Hbetween.
    now rewrite worker_locals_after.
Qed.

(** C3 at concrete inputs: the first two turns in [steady_world]. *)
Lemma published_value_witness :
  is_finite (committed worker_locals (Ranger_new steady_world)) = true
  /\ (m_range (obj (shared (worker_turns 1 (start steady_world))))
      =? committed worker_locals (Ranger_new steady_world))%float = true
  /\ is_finite (m_range (obj (shared (worker_turns 2 (start steady_world)))))
     = true.
Proof.
  assert (F1 : is_finite (committed (wl (worker_turns 0 (start steady_world)))
                                    (shared (worker_turns 0 (start steady_world))))
               = true) by (vm_compute; reflexivity).
  assert (F3 : is_finite (m_range (obj (shared (worker_turns 1 (start steady_world)))))
               = true) by (vm_compute; reflexivity).
  assert (F4 : is_finite (committed (wl (worker_turns 1 (start steady_world)))
                                    (shared (worker_turns 1 (start steady_world))))
               = true) by (vm_compute; reflexivity).
  assert (F5 : is_finite
                 (committed (wl (worker_turns 1 (start steady_world)))
                            (shared (worker_turns 1 (start steady_world)))
                  - m_range (obj (shared (worker_turns 1 (start steady_world)))))%float
               = true) by (vm_compute; reflexivity).
  split; [exact F1|]. split.
  - destruct (published_value steady_world 0) as (Hfirst & _ & _).
    destruct (Hfirst eq_refl F1) as [H _]. exact H.
  - destruct (published_value steady_world 1) as (_ & _ & Hlater).
    destruct (Hlater (le_n 1) F3 F4 F5) as [H _]. exact H.
Defined.

(** C3, where it fails: 1.0000000000000002 is the double next to 1.0; the
    difference is 2^-52, half of it 2^-53, and 1.0 + 2^-53 rounds back to
    1.0.  The new value is the old one although the reading differs. *)
Lemma filtered_can_stay_put :
  filtered false 1.0%float 1.0000000000000002%float = 1.0%float
  /\ (1.0000000000000002 =? 1.0)%float = false
  /\ (1.0 <? filtered false 1.0 1.0000000000000002)%float = false.
Proof. repeat split. Qed.

(** The same in a run, in [restarting_world]: the first turn publishes
    2.1266875, the second commits the next double and publishes 2.1266875
    again. *)
Lemma adjacent_readings_run :
  let t1 := worker_turns 1 (start restarting_world) in
  let t2 := worker_turns 2 (start restarting_world) in
  m_range (obj (shared t1)) = 2.1266875%float
  /\ committed (wl t1) (shared t1) = 2.1266875000000005%float
  /\ m_range (obj (shared t2)) = 2.1266875%float.
Proof. vm_compute. repeat split. Qed.

(** Without the bound on [c - prev] the new value can leave the interval:
    the difference overflows. *)
Lemma filtered_can_overflow :
  filtered false (-1.7e308)%float 1.7e308%float = infinity.
Proof. reflexivity. Qed.

(** ** PIDControl *)





(** The derivative acts on the measurement: with [dGain = 1] and the same
    error, a position going from 2.0 to 3.0 contributes -1.0. *)
Lemma derivative_on_measurement :
  let c := mkPIDControl 2.0%float 0.0%float 10.0%float (-10.0)%float 0.0%float
                        0.0%float 1.0%float in
  fst (update 100.0%float 3.0%float c) = (-1.0)%float
  /\ m_dState (snd (update 100.0%float 3.0%float c)) = 3.0%float.
Proof. split; reflexivity. Qed.

(** * Further properties of the ranger *)

(** ** The outlier test, as the code makes it *)

(** Without NaN, [<] is the negation of the converse [<=]. *)
Lemma ltb_negb_leb (x y : float) :
  is_nan x = false -> is_nan y = false ->
  (x <? y)%float = negb (y <=? x)%float.
Proof.
  intros Hx Hy. rewrite ltb_spec, leb_spec. unfold SFltb, SFleb.
  destruct (not_nan_compare x y Hx Hy) as [c Hc].
  rewrite Hc, (SFcompare_antisym _ _ _ Hc). now destruct c.
Qed.

(** A reading at or above the floor is positive, and its distance from 0.0
    is the reading itself. *)
Lemma fabs_sub_zero (r : float) :
  (0.001 <=? r)%float = true -> fabs (r - 0.0)%float = r.
Proof.
  intros H. apply Prim2SF_inj. unfold fabs. rewrite abs_spec, sub_spec.
  rewrite leb_spec in H. unfold SFleb in H.
  assert (Hc : exists m e, Prim2SF 0.001 = S754_finite false m e)
    by (eexists; eexists; vm_compute; reflexivity).
  destruct Hc as (m0 & e0 & Hc). rewrite Hc in H.
  change (Prim2SF 0.0) with (S754_zero false).
  destruct (Prim2SF r) as [s | s | | s m e]; cbn in H; try discriminate.
  - destruct s; [discriminate | reflexivity].
  - destruct s; [discriminate | reflexivity].
Qed.

(** The test of lines 95-97 with [oldRange = 0.0], on a reading that is a
    number: only readings from 1 mm to 1 cm pass. *)
Lemma is_outlier_against_zero (raw : double) :
  is_nan raw = false ->
  is_outlier false 0.0%float raw =
  negb ((0.001 <=? raw)%float && (raw <=? 0.01)%float).
Proof.
  intros Hn. unfold is_outlier, gtb. cbn [negb andb].
  rewrite (ltb_negb_leb raw 0.001) by (trivial; reflexivity).
  destruct (0.001 <=? raw)%float eqn:Hfloor; cbn [negb andb orb].
  - rewrite fabs_sub_zero by assumption.
    rewrite (ltb_negb_leb 0.01 raw) by (trivial; reflexivity).
    now rewrite orb_false_r.
  - apply orb_true_r.
Qed.

(** X1: which readings a run retries.  The first turn retries a reading
    below 0.001 and no other.  Every later turn retries every reading that
    is a number and does not lie between 0.001 and 0.01: in particular
    every reading above 1 cm is measured twice, whatever the reading of
    the turn before was. *)
Theorem retried_readings (w : World) (n : nat) :
  let t := worker_turns n (start w) in
  let raw := fst (measureRange (shared t)) in
  let retry := if (n =? 0)%nat
               then (raw <? 0.001)%float
               else negb ((0.001 <=? raw)%float && (raw <=? 0.01)%float) in
  is_nan raw = false ->
  is_outlier (firstTime (wl t)) (range (wl t)) raw = retry
  /\ pulses (hw (shared (worker_turns (S n) (start w)))) =
     (pulses (hw (shared t)) + (if retry then 2 else 1))%nat
  /\ committed (wl t) (shared t) =
     (if retry then fst (measureRange (snd (measureRange (shared t)))) else raw).
Proof.
  cbv zeta. intros Hn.
  assert (Hout : is_outlier (firstTime (wl (worker_turns n (start w))))
                            (range (wl (worker_turns n (start w))))
                            (fst (measureRange (shared (worker_turns n (start w)))))
                 = if (n =? 0)%nat
                   then (fst (measureRange (shared (worker_turns n (start w))))
                         <? 0.001)%float
                   else negb ((0.001 <=? fst (measureRange
                                 (shared (worker_turns n (start w)))))%float
                              && (fst (measureRange
                                    (shared (worker_turns n (start w))))
                                  <=? 0.01)%float)).
  { destruct n as [|n].
    - rewrite worker_turns_0. reflexivity.
    - rewrite worker_locals_after. cbn [Nat.eqb firstTime range].
      now apply is_outlier_against_zero. }
  split; [exact Hout|]. split.
  - rewrite (worker_turns_S n) by apply start_m_run. cbv zeta. cbn [shared].
    rewrite worker_body_hw, Hout.
    destruct (if (n =? 0)%nat then _ else _); rewrite ?measureRange_pulses; lia.
  - unfold committed. cbv zeta. rewrite Hout.
    now destruct (if (n =? 0)%nat then _ else _).
Qed.

(** X1 at a concrete input: the second turn in [steady_world], whose
    reading of about 1.33 m is retried. *)
Lemma retried_readings_witness :
  is_nan (fst (measureRange (shared (worker_turns 1 (start steady_world))))) = false
  /\ pulses (hw (shared (worker_turns 2 (start steady_world)))) =
     (pulses (hw (shared (worker_turns 1 (start steady_world)))) + 2)%nat.
Proof.
  assert (Hn : is_nan (fst (measureRange
                 (shared (worker_turns 1 (start steady_world))))) = false)
    by (vm_compute; reflexivity).
  split; [exact Hn|].
  destruct (retried_readings steady_world 1 Hn) as (_ & Hp & _).
  rewrite Hp. vm_compute. reflexivity.
Defined.

(** A NaN passes the test in every turn: it is never retried. *)
Lemma nan_is_not_retried (firstTime : bool) (oldRange : double) :
  is_outlier firstTime oldRange nan = false.
Proof.
  unfold is_outlier, gtb, fabs.
  assert (H1 : (0.01 <? abs (nan - oldRange))%float = false).
  { rewrite ltb_spec, abs_spec, sub_spec. change (Prim2SF nan) with S754_nan.
    unfold SFltb. now destruct (Prim2SF 0.01). }
  rewrite H1, andb_false_r. reflexivity.
Qed.

(** ** Stopping the worker *)

Lemma worker_turns_stopped (n : nat) (t : Threads) :
  m_run (obj (shared t)) = false -> worker_turns n t = t.
Proof.
  intros H. unfold worker_turns. rewrite worker_loop_stopped by assumption.
  now destruct t.
Qed.

Lemma worker_turns_m_run (n : nat) (t : Threads) :
  m_run (obj (shared (worker_turns n t))) = m_run (obj (shared t)).
Proof.
  unfold worker_turns.
  pose proof (worker_loop_m_run n (wl t) (shared t)) as H.
  now destruct (worker_loop n (wl t) (shared t)).
Qed.

(** ** Pulses in a run *)

Lemma worker_body_pulses (l : Locals) (s : Sys) :
  (pulses (hw s) + 1 <= pulses (hw (snd (worker_body l s))) <= pulses (hw s) + 2)%nat.
Proof.
  rewrite worker_body_hw.
  destruct (is_outlier _ _ _); rewrite ?measureRange_pulses; lia.
Qed.

(** X7: a running worker sends at least one and at most two trigger
    pulses per turn: after [n] more turns, between [n] and [2 n] more
    pulses. *)
Theorem pulses_per_turn (n : nat) (t : Threads) :
  m_run (obj (shared t)) = true ->
  (pulses (hw (shared t)) + n <= pulses (hw (shared (worker_turns n t)))
   <= pulses (hw (shared t)) + 2 * n)%nat.
Proof.
  intros Hrun. induction n as [|n IH].
  - rewrite worker_turns_0. lia.
  - rewrite worker_turns_S by assumption. cbv zeta. cbn [shared].
    pose proof (worker_body_pulses (wl (worker_turns n t))
                                   (shared (worker_turns n t))). lia.
Qed.

Lemma pulses_per_turn_witness :
  m_run (obj (shared (start steady_world))) = true
  /\ (3 <= pulses (hw (shared (worker_turns 3 (start steady_world)))) <= 6)%nat.
Proof.
  split; [reflexivity|].
  exact (pulses_per_turn 3 (start steady_world) eq_refl).
Defined.

(** ** The destructor, while the worker runs *)

Lemma land_spec (at_ i : nat) (s : Sys) :
  land at_ i s = (tt, if (at_ <=? i)%nat then set_run false s else s).
Proof. unfold land. now destruct (at_ <=? i)%nat. Qed.

Lemma measureRange_landing_spec (at_ b : nat) (s : Sys) :
  measureRange_landing at_ b s =
  (fst (measureRange s),
   if (at_ <=? b + 8)%nat then set_run false (snd (measureRange s))
   else snd (measureRange s)).
Proof.
  destruct s as [[r c run tl] [ca nc ea ne tr]].
  unfold measureRange_landing, measureRange, land, Ranger_delete. st_unfold.
  repeat match goal with
         | |- context [(?a <=? ?b)%nat] =>
             destruct (Nat.leb_spec a b); try lia
         end;
    cbn; destruct (PrimFloat.ltb _ minimumInterval); cbn;
    destruct (ea ne); cbn; try destruct (ea (S ne)); reflexivity.
Qed.

(** Nothing in [measureRange] reads or writes [m_run]. *)
Lemma measureRange_set_run (b : bool) (s : Sys) :
  measureRange (set_run b s) =
  (fst (measureRange s), set_run b (snd (measureRange s))).
Proof.
  destruct s as [[r c run tl] [ca nc ea ne tr]].
  unfold measureRange, set_run. st_unfold. cbn.
  destruct (PrimFloat.ltb _ minimumInterval); cbn;
    destruct (ea ne); cbn; try destruct (ea (S ne)); reflexivity.
Qed.

Lemma set_run_idem (b : bool) (s : Sys) : set_run b (set_run b s) = set_run b s.
Proof. reflexivity. Qed.

(** Wherever the store lands in it, the turn in flight ends as it would
    have ended undisturbed, with [m_run] cleared. *)
Lemma worker_body_landing_spec (at_ : nat) (l : Locals) (s : Sys) :
  (at_ <= 20)%nat ->
  worker_body_landing at_ l s =
  (fst (worker_body l s), set_run false (snd (worker_body l s))).
Proof.
  intros Hat. rewrite worker_body_unfold. cbv zeta.
  unfold worker_body_landing. cbv zeta.
  unfold bind at 1. rewrite measureRange_landing_spec.
  destruct (measureRange s) as [r1 s1] eqn:E1. cbn [fst snd].
  unfold bind at 1. rewrite land_spec. unfold bind at 1.
  destruct (is_outlier (firstTime l) (range l) r1).
  - rewrite measureRange_landing_spec.
    destruct (measureRange s1) as [r2 s2] eqn:E.
    repeat match goal with
           | |- context [(?a <=? ?b)%nat] =>
               destruct (Nat.leb_spec a b); try lia
           end;
      rewrite ?measureRange_set_run, ?E; cbn [fst snd];
      unfold bind, get, modify, ret; cbn [fst snd]; rewrite ?land_spec;
      repeat match goal with
             | |- context [(?a <=? ?b)%nat] =>
                 destruct (Nat.leb_spec a b); try lia
             end; reflexivity.
  - unfold bind, get, modify, ret; cbn [fst snd]. rewrite ?land_spec.
    repeat match goal with
           | |- context [(?a <=? ?b)%nat] =>
               destruct (Nat.leb_spec a b); try lia
           end; reflexivity.
Qed.

(** X2: how the destructor stops the worker.  After any number of turns of
    a new sensor [m_run] is still true, so only the destructor's store ends
    the loop.  If the store lands while the worker is at the test of its
    loop, the worker makes no further turn.  If it lands anywhere in a turn
    in flight (places 0 to 20), that turn ends exactly as it would have
    ended undisturbed: it publishes once more, the count steps once more and
    one or two more pulses are sent; after it the worker makes no further
    turn. *)
Theorem destructor_stops_worker (w : World) (n m at_ : nat) :
  (at_ <= 20)%nat ->
  let t := worker_turns n (start w) in
  let t' := turn_in_flight at_ t in
  m_run (obj (shared t)) = true
  /\ worker_turns m (stopped t) = stopped t
  /\ t' = stopped (worker_turns 1 t)
  /\ worker_turns m t' = t'
  /\ fst (getCount (shared t')) = uincr (fst (getCount (shared t)))
  /\ (pulses (hw (shared t)) + 1 <= pulses (hw (shared t'))
      <= pulses (hw (shared t)) + 2)%nat.
Proof.
  intros Hat. cbv zeta.
  set (t := worker_turns n (start w)).
  assert (Hrun : m_run (obj (shared t)) = true).
  { unfold t. now rewrite worker_turns_m_run. }
  assert (Ht' : turn_in_flight at_ t = stopped (worker_turns 1 t)).
  { unfold turn_in_flight, stopped, worker_turns.
    rewrite worker_body_landing_spec, worker_loop_S by assumption.
    cbn [worker_loop]. unfold ret. cbn [wl shared].
    unfold Ranger_delete, modify. reflexivity. }
  split; [exact Hrun|]. split; [now apply worker_turns_stopped|].
  split; [exact Ht'|]. rewrite Ht'.
  split; [now apply worker_turns_stopped|].
  unfold stopped, worker_turns. rewrite worker_loop_S by assumption.
  cbn [worker_loop]. unfold ret, Ranger_delete, modify, getCount, bind, get.
  cbn [fst snd shared wl]. split.
  - change (m_count (obj (set_run false (snd (worker_body (wl t) (shared t))))))
      with (m_count (obj (snd (worker_body (wl t) (shared t))))).
    apply worker_body_m_count.
  - change (hw (set_run false (snd (worker_body (wl t) (shared t)))))
      with (hw (snd (worker_body (wl t) (shared t)))).
    apply worker_body_pulses.
Qed.

(** X2 at a concrete input: in [steady_world] the store lands after the
    first echo of the third turn; the count still goes from 2 to 3, and
    stays there. *)
Lemma destructor_stops_worker_witness :
  fst (getCount (shared (worker_turns 2 (start steady_world)))) = 2
  /\ fst (getCount (shared (worker_turns 3
            (turn_in_flight 5 (worker_turns 2 (start steady_world)))))) = 3.
Proof.
  assert (H2 : fst (getCount (shared (worker_turns 2 (start steady_world)))) = 2)
    by (vm_compute; reflexivity).
  split; [exact H2|].
  assert (Hat : (5 <= 20)%nat) by lia.
  destruct (destructor_stops_worker steady_world 2 3 5 Hat)
    as (_ & _ & _ & Hfix & Hc & _).
  rewrite Hfix, Hc, H2. reflexivity.
Defined.


(** ** [initialise] at its two ends *)

(** X3: the two ends of [initialise].  If none of its eleven calls of
    [ready()] finds a measurement, it sleeps ten times 50 ms, 500 ms in all,
    and answers false.  If the first call already finds one, it does not
    sleep at all and answers what its second call of [ready()] sees. *)
Theorem initialise_edges (sched : nat -> nat) (t0 : Threads) :
  let seen j := fst (ready (shared (worker_turns (turns_before sched (S j)) t0))) in
  let run := initialise sched t0 in
  ((forall j, (j <= 10)%nat -> seen j = false) ->
     sleeps run = repeat 50 10 /\ fold_right Z.add 0 (sleeps run) = 500
     /\ polls run = 11%nat /\ answer run = false)
  /\ (seen 0%nat = true ->
      sleeps run = [] /\ polls run = 2%nat /\ answer run = seen 1%nat).
Proof.
  cbv zeta.
  destruct (initialise_run sched t0)
    as (Hz & Hk & Hp & Hbefore & Hstop & Hfinal & Hanswer).
  set (run := initialise sched t0) in *.
  split.
  - intros Hnever.
    assert (Hten : length (sleeps run) = 10%nat).
    { destruct (Nat.lt_ge_cases (length (sleeps run)) 10) as [Hlt | Hge]; [|lia].
      specialize (Hstop Hlt). rewrite Hnever in Hstop by lia. discriminate. }
    rewrite Hten in Hz, Hp. cbn in Hp.
    split; [exact Hz|]. split; [now rewrite Hz|]. split; [exact Hp|].
    rewrite Hanswer, Hfinal, Hp. apply Hnever. lia.
  - intros Hfirst.
    assert (Hnone : length (sleeps run) = 0%nat).
    { destruct (length (sleeps run)) as [|k] eqn:Hlen; [reflexivity|].
      rewrite (Hbefore 0%nat) in Hfirst by lia. discriminate. }
    rewrite Hnone in Hz, Hp. cbn in Hz, Hp.
    split; [exact Hz|]. split; [exact Hp|].
    now rewrite Hanswer, Hfinal, Hp.
Qed.

(** X3 at concrete inputs: a new sensor whose worker completes no turn
    while the caller polls is never ready; one whose worker completes a turn
    before each call is ready at the first. *)
Lemma initialise_edges_witness :
  answer (initialise (fun _ => 0%nat) (start silent_world)) = false
  /\ fold_right Z.add 0 (sleeps (initialise (fun _ => 0%nat) (start silent_world)))
     = 500
  /\ sleeps (initialise (fun _ => 1%nat) (start silent_world)) = [].
Proof.
  destruct (initialise_edges (fun _ => 0%nat) (start silent_world))
    as [Hnever _].
  destruct (initialise_edges (fun _ => 1%nat) (start silent_world))
    as [_ Hfirst].
  assert (H0 : forall j, (j <= 10)%nat ->
             fst (ready (shared (worker_turns (turns_before (fun _ => 0%nat) (S j))
                                              (start silent_world))))
             = false).
  { intros j _. now rewrite turns_before_idle, worker_turns_0. }
  destruct (Hnever H0) as (_ & Hsum & _ & Hans).
  split; [exact Hans|]. split; [exact Hsum|].
  apply Hfirst. vm_compute. reflexivity.
Defined.

(** ** What [measureRange] does to the object and to the clock *)

(** X4: [measureRange] publishes nothing.  On every path it leaves
    [m_range], [m_count] and [m_run] alone and sets [m_timeLastRun] to the
    clock reading taken just before the pulse; it reads the clock twice,
    once more after a rising edge and once more after a falling edge; so
    the interval the next call tests is measured from the pulse of this
    one. *)
Theorem measureRange_frame (s : Sys) :
  let w := hw s in
  let s' := snd (measureRange s) in
  let rising := echoAt w (necho w) in
  let falling := echoAt w (S (necho w)) in
  (m_range (obj s'), m_count (obj s'), m_run (obj s'))
    = (m_range (obj s), m_count (obj s), m_run (obj s))
  /\ m_timeLastRun (obj s') = clockAt w (S (nclock w))
  /\ nclock (hw s') =
     (nclock w + 2 + (if rising then 1 + (if falling then 1 else 0) else 0))%nat
  /\ clockAt (hw s') = clockAt w /\ echoAt (hw s') = echoAt w
  /\ interval_at s' = (clockAt w (nclock (hw s')) - clockAt w (S (nclock w)))%float.
Proof.
  cbv zeta.
  assert (Hframe : nclock (hw (snd (measureRange s))) =
            (nclock (hw s) + 2
             + (if echoAt (hw s) (necho (hw s))
                then 1 + (if echoAt (hw s) (S (necho (hw s))) then 1 else 0)
                else 0))%nat
            /\ clockAt (hw (snd (measureRange s))) = clockAt (hw s)
            /\ echoAt (hw (snd (measureRange s))) = echoAt (hw s)).
  { unfold measureRange. st_unfold.
    destruct (PrimFloat.ltb _ minimumInterval); cbn;
      destruct (echoAt (hw s) (necho (hw s))); cbn;
      try destruct (echoAt (hw s) (S (necho (hw s)))); cbn;
      repeat split; lia. }
  destruct Hframe as (Hn & Hc & He).
  rewrite measureRange_obj. cbn [m_range m_count m_run m_timeLastRun].
  repeat split; trivial.
  unfold interval_at. rewrite measureRange_obj, Hc. reflexivity.
Qed.

(** ** Readings are not negative *)

Lemma shr_1_nonneg (mrs : shr_record) : 0 <= shr_m mrs -> 0 <= shr_m (shr_1 mrs).
Proof.
  destruct mrs as [m r s]. cbn [shr_m]. intros H.
  destruct m as [|p|p]; [cbn; lia | | lia].
  destruct p; cbn; lia.
Qed.

Lemma iter_pos_nonneg (p : positive) :
  forall mrs, 0 <= shr_m mrs -> 0 <= shr_m (iter_pos shr_1 p mrs).
Proof.
  induction p as [p IH | p IH |]; intros mrs H; cbn [iter_pos].
  - apply IH, IH. now apply shr_1_nonneg.
  - now apply IH, IH.
  - now apply shr_1_nonneg.
Qed.

Lemma shr_fexp_nonneg (m e : Z) (l : location) :
  0 <= m -> 0 <= shr_m (fst (shr_fexp prec emax m e l)).
Proof.
  intros H. unfold shr_fexp.
  assert (H0 : 0 <= shr_m (shr_record_of_loc m l))
    by (destruct l as [|[| |]]; exact H).
  destruct (fexp prec emax (Zdigits2 m + e) - e) as [|p|p]; cbn [shr fst];
    trivial. now apply iter_pos_nonneg.
Qed.

Lemma round_nearest_even_ge (m : Z) (l : location) : m <= round_nearest_even m l.
Proof. destruct l as [|[| |]]; cbn; try destruct (Z.even m); lia. Qed.

(** Rounding a mantissa that is not negative gives the wanted sign, never
    NaN. *)
Lemma binary_round_aux_sign (s : bool) (m e : Z) (l : location) :
  0 <= m ->
  match binary_round_aux prec emax s m e l with
  | S754_nan => False
  | S754_zero s' | S754_infinity s' | S754_finite s' _ _ => s' = s
  end.
Proof.
  intros H. unfold binary_round_aux.
  pose proof (shr_fexp_nonneg m e l H) as H1.
  destruct (shr_fexp prec emax m e l) as [mrs1 e1]. cbn [fst] in H1.
  pose proof (round_nearest_even_ge (shr_m mrs1) (loc_of_shr_record mrs1)) as H2.
  pose proof (shr_fexp_nonneg
                (round_nearest_even (shr_m mrs1) (loc_of_shr_record mrs1))
                e1 loc_Exact ltac:(lia)) as H3.
  destruct (shr_fexp prec emax _ e1 loc_Exact) as [mrs2 e2]. cbn [fst] in H3.
  destruct (shr_m mrs2) as [|p|p]; [reflexivity | | lia].
  now destruct (e2 <=? emax - prec).
Qed.

Lemma SFmul_nonneg (x : spec_float) (mc : positive) (ec : Z) :
  SFnonneg x = true -> SFnonneg (SF64mul x (S754_finite false mc ec)) = true.
Proof.
  destruct x as [s | s | | s m e]; cbn [SFnonneg]; try discriminate;
    unfold SF64mul; cbn [SFmul].
  - reflexivity.
  - destruct s; [discriminate | reflexivity].
  - destruct s; [discriminate|]. intros _. cbn [xorb].
    pose proof (binary_round_aux_sign false (Zpos (m * mc)) (e + ec) loc_Exact
                  ltac:(lia)) as H.
    destruct (binary_round_aux prec emax false _ _ _); try contradiction;
      subst; reflexivity.
Qed.

Lemma SFdiv_nonneg (x : spec_float) (mc : positive) (ec : Z) :
  SFnonneg x = true -> SFnonneg (SF64div x (S754_finite false mc ec)) = true.
Proof.
  destruct x as [s | s | | s m e]; cbn [SFnonneg]; try discriminate;
    unfold SF64div; cbn [SFdiv].
  - reflexivity.
  - destruct s; [discriminate | reflexivity].
  - destruct s; [discriminate|]. intros _. cbn [xorb].
    unfold SFdiv_core_binary.
    set (m' := match _ - _ - _ with Z0 => Zpos m | Zpos _ => _ | Zneg _ => 0 end).
    assert (Hm : 0 <= m').
    { unfold m'. destruct (_ - _ - _); try lia. apply Z.shiftl_nonneg. lia. }
    pose proof (Z.div_pos m' (Zpos mc) Hm ltac:(lia)) as Hq.
    unfold Z.div in Hq.
    destruct (Z.div_eucl m' (Zpos mc)) as [q r].
    pose proof (binary_round_aux_sign false q
                  (Z.min (fexp prec emax (Zdigits2 (Zpos m) + e
                                          - (Zdigits2 (Zpos mc) + ec))) (e - ec))
                  (new_location (Zpos mc) r) Hq) as H.
    destruct (binary_round_aux prec emax false _ _ _); try contradiction;
      subst; reflexivity.
Qed.

Lemma SFsub_nonneg (x y : spec_float) :
  valid_binary x = true -> valid_binary y = true ->
  SFfinite x = true -> SFfinite y = true ->
  SFvalue y <= SFvalue x -> SFnonneg (SF64sub x y) = true.
Proof.
  intros Vx Vy Fx Fy Hle.
  destruct (SFsub_rounds x y Vx Vy Fx Fy) as (Vd & Hlo & _).
  specialize (Hlo 0 representable_0 ltac:(lia)).
  destruct (SF64sub x y) as [s | s | | s m e]; cbn [at_least SFnonneg] in *.
  - reflexivity.
  - now subst s.
  - contradiction.
  - pose proof (bounded_mag_pos m e Vd). destruct s; cbn in *; [lia | reflexivity].
Qed.

Lemma nonneg_leb_zero (r : float) :
  SFnonneg (Prim2SF r) = true -> is_nan r = false /\ (0.0 <=? r)%float = true.
Proof.
  intros H. rewrite is_nan_spec, leb_spec. unfold SFleb.
  change (Prim2SF 0.0) with (S754_zero false).
  destruct (Prim2SF r) as [s | s | | s m e]; cbn in *; try discriminate.
  - auto.
  - destruct s; [discriminate | auto].
  - destruct s; [discriminate | auto].
Qed.

(** X5: a reading is zero or more, never NaN, as long as the clock is sane
    between the two edges: whenever both edges arrive, the two readings of
    the clock are finite and the second is not before the first. *)
Theorem measureRange_not_negative (s : Sys) :
  let w := hw s in
  let rise := clockAt w (2 + nclock w) in
  let fall := clockAt w (3 + nclock w) in
  (echoAt w (necho w) && echoAt w (S (necho w)) = true ->
   is_finite rise = true /\ is_finite fall = true /\ (rise <=? fall)%float = true) ->
  is_nan (fst (measureRange s)) = false
  /\ (0.0 <=? fst (measureRange s))%float = true.
Proof.
  cbv zeta. intros Hsane. rewrite measureRange_value.
  destruct (echoAt (hw s) (necho (hw s)) && echoAt (hw s) (S (necho (hw s))));
    [|split; reflexivity].
  destruct (Hsane eq_refl) as (Fr & Ff & Hle).
  apply nonneg_leb_zero.
  rewrite div_spec, mul_spec, sub_spec.
  assert (Hc : exists m e, Prim2SF speedOfSound = S754_finite false m e)
    by (eexists; eexists; vm_compute; reflexivity).
  assert (Ht : exists m e, Prim2SF 2.0 = S754_finite false m e)
    by (eexists; eexists; vm_compute; reflexivity).
  destruct Hc as (mc & ec & ->). destruct Ht as (mt & et & ->).
  apply SFdiv_nonneg, SFmul_nonneg.
  rewrite leb_value in Hle by assumption. apply Z.leb_le in Hle.
  rewrite is_finite_spec in Fr, Ff.
  apply SFsub_nonneg; trivial; apply Prim2SF_valid.
Qed.

Lemma measureRange_not_negative_witness :
  (0.0 <=? fst (measureRange (Ranger_new steady_world)))%float = true.
Proof.
  apply (measureRange_not_negative (Ranger_new steady_world)).
  intros _. vm_compute. repeat split.
Defined.

(** ** The published value over a run *)

(** What lies between two finite numbers is finite. *)
Lemma between_finite (lo hi x : float) :
  is_finite lo = true -> is_finite hi = true ->
  (lo <=? x)%float = true -> (x <=? hi)%float = true -> is_finite x = true.
Proof.
  rewrite !is_finite_spec, !leb_spec. unfold SFleb.
  destruct (Prim2SF lo) as [sl | sl | | sl ml el]; try discriminate;
    destruct (Prim2SF hi) as [sh | sh | | sh mh eh]; try discriminate;
    destruct (Prim2SF x) as [s | s | | s m e]; cbn; trivial;
    destruct s; discriminate.
Qed.

Lemma leb_values (x y : float) :
  is_finite x = true -> is_finite y = true ->
  (x <=? y)%float = true <-> SFvalue (Prim2SF x) <= SFvalue (Prim2SF y).
Proof. intros Fx Fy. rewrite leb_value by assumption. apply Z.leb_le. Qed.

(** One step of the filter keeps the value inside any interval of
    non-negative numbers that holds both the old value and the reading. *)
Lemma filter_keeps_range (lo hi prev c : float) :
  is_finite lo = true -> is_finite hi = true -> (0.0 <=? lo)%float = true ->
  (lo <=? prev)%float = true -> (prev <=? hi)%float = true ->
  (lo <=? c)%float = true -> (c <=? hi)%float = true ->
  is_finite (prev + 0.5 * (c - prev))%float = true
  /\ (lo <=? prev + 0.5 * (c - prev))%float = true
  /\ (prev + 0.5 * (c - prev) <=? hi)%float = true.
Proof.
  intros Fl Fh H0 Hlp Hph Hlc Hch.
  assert (Fp : is_finite prev = true) by now apply (between_finite lo hi).
  assert (Fc : is_finite c = true) by now apply (between_finite lo hi).
  apply leb_values in H0, Hlp, Hph, Hlc, Hch; trivial.
  change (SFvalue (Prim2SF 0.0)) with 0 in H0.
  assert (Fd : is_finite (c - prev)%float = true).
  { rewrite is_finite_spec, sub_spec.
    pose proof Fp as Fp'. pose proof Fc as Fc'. pose proof Fh as Fh'.
    rewrite is_finite_spec in Fp', Fc', Fh'.
    apply (rounds_finite (SFvalue (Prim2SF c) - SFvalue (Prim2SF prev))
                         (- SFvalue (Prim2SF hi)) (SFvalue (Prim2SF hi))).
    - apply SFsub_rounds; trivial; apply Prim2SF_valid.
    - apply representable_opp, representable_value; trivial. apply Prim2SF_valid.
    - apply representable_value; trivial. apply Prim2SF_valid.
    - lia. }
  destruct (filter_step_float_between prev c Fp Fc Fd) as (Ff & Hup & Hdown).
  split; [exact Ff|].
  destruct (Z.le_ge_cases (SFvalue (Prim2SF prev)) (SFvalue (Prim2SF c)))
    as [Hle | Hge].
  - destruct (Hup (proj2 (leb_values prev c Fp Fc) Hle)) as [H1 H2].
    apply leb_values in H1, H2; trivial.
    split; apply leb_values; trivial; lia.
  - destruct (Hdown (proj2 (leb_values c prev Fc Fp) ltac:(lia))) as [H1 H2].
    apply leb_values in H1, H2; trivial.
    split; apply leb_values; trivial; lia.
Qed.

(** X6: the filter never overshoots.  If every reading committed in the
    first [n + 1] turns lies in [[lo, hi]], with [0 <= lo] and both bounds
    finite, so does the value published after these turns, and it is
    finite. *)
Theorem published_stays_in_range (w : World) (lo hi : double) (n : nat) :
  is_finite lo = true -> is_finite hi = true -> (0.0 <=? lo)%float = true ->
  (forall i, (i <= n)%nat ->
     let t := worker_turns i (start w) in
     (lo <=? committed (wl t) (shared t))%float = true
     /\ (committed (wl t) (shared t) <=? hi)%float = true) ->
  let p := m_range (obj (shared (worker_turns (S n) (start w)))) in
  is_finite p = true /\ (lo <=? p)%float = true /\ (p <=? hi)%float = true.
Proof.
  intros Fl Fh H0 Hall. cbv zeta. induction n as [|n IH].
  - destruct (Hall 0%nat (le_n 0)) as [Hlc Hch]. cbv zeta in Hlc, Hch.
    rewrite (worker_turns_S 0) by apply start_m_run. cbv zeta. cbn [shared].
    destruct (turn_publishes (wl (worker_turns 0 (start w)))
                             (shared (worker_turns 0 (start w))))
      as (Hfirst & _ & _).
    assert (Fc : is_finite (committed (wl (worker_turns 0 (start w)))
                                      (shared (worker_turns 0 (start w)))) = true)
      by now apply (between_finite lo hi).
    rewrite worker_turns_0 in *.
    destruct (Hfirst eq_refl Fc) as [Heq [Hsame | [Hneg Hzero]]].
    + rewrite Hsame. auto.
    + rewrite Hzero. rewrite Hneg in Hlc, Hch.
      apply leb_values in Hlc, Hch; trivial.
      repeat split; [apply leb_values | apply leb_values]; trivial.
  - assert (Hprev : forall i, (i <= n)%nat ->
              let t := worker_turns i (start w) in
              (lo <=? committed (wl t) (shared t))%float = true
              /\ (committed (wl t) (shared t) <=? hi)%float = true)
      by (intros i Hi; apply Hall; lia).
    destruct (IH Hprev) as (Fp & Hlp & Hph).
    destruct (Hall (S n) (le_n (S n))) as [Hlc Hch]. cbv zeta in Hlc, Hch.
    rewrite (worker_turns_S (S n)) by apply start_m_run. cbv zeta. cbn [shared].
    destruct (turn_publishes (wl (worker_turns (S n) (start w)))
                             (shared (worker_turns (S n) (start w))))
      as (_ & Heq & _).
    rewrite Heq by now rewrite worker_locals_after.
    now apply filter_keeps_range.
Qed.

(** X6 at a concrete input: two turns in [steady_world], readings between
    1 m and 2 m. *)
Lemma published_stays_in_range_witness :
  (1.0 <=? m_range (obj (shared (worker_turns 2 (start steady_world)))))%float = true
  /\ (m_range (obj (shared (worker_turns 2 (start steady_world)))) <=? 2.0)%float
     = true.
Proof.
  apply (published_stays_in_range steady_world 1.0%float 2.0%float 1);
    try reflexivity.
  intros i Hi. destruct i as [|[|i]]; [vm_compute; split; reflexivity .. | lia].
Defined.

(** ** NaN *)

Lemma Prim2SF_nan (x : float) : is_nan x = true -> Prim2SF x = S754_nan.
Proof. rewrite is_nan_spec. now destruct (Prim2SF x). Qed.

Lemma filtered_nan_reading (firstTime : bool) (prev c : double) :
  is_nan c = true -> is_nan (filtered firstTime prev c) = true.
Proof.
  intros H. apply Prim2SF_nan in H. rewrite is_nan_spec.
  unfold filtered, k. destruct firstTime;
    rewrite add_spec, mul_spec, sub_spec, H;
    unfold SF64add, SF64mul, SF64sub; cbn [SFsub];
    destruct (Prim2SF 0.5), (Prim2SF prev); reflexivity.
Qed.

Lemma filtered_nan_state (prev c : double) :
  is_nan prev = true -> is_nan (filtered false prev c) = true.
Proof.
  intros H. apply Prim2SF_nan in H. rewrite is_nan_spec.
  unfold filtered, k. now rewrite add_spec, H.
Qed.

(** X8: NaN is never repaired.  A committed reading that is NaN is
    published as NaN, and once the published value is NaN it is NaN after
    every later turn, whatever is measured. *)
Theorem nan_is_absorbing (w : World) (n m : nat) :
  let p i := m_range (obj (shared (worker_turns i (start w)))) in
  let t := worker_turns n (start w) in
  is_nan (committed (wl t) (shared t)) = true \/ ((1 <= n)%nat /\ is_nan (p n) = true) ->
  is_nan (p (S n + m)%nat) = true.
Proof.
  cbv zeta. intros H.
  assert (Hnext : is_nan (m_range (obj (shared (worker_turns (S n) (start w)))))
                  = true).
  { rewrite (worker_turns_S n) by apply start_m_run. cbv zeta. cbn [shared].
    rewrite worker_body_m_range. destruct H as [Hc | [Hn Hp]].
    - now apply filtered_nan_reading.
    - destruct n as [|n]; [lia|]. rewrite worker_locals_after. cbn [firstTime].
      now apply filtered_nan_state. }
  induction m as [|m IH].
  - now rewrite Nat.add_0_r.
  - replace (S n + S m)%nat with (S (S n + m)) by lia.
    rewrite (worker_turns_S (S n + m)) by apply start_m_run. cbv zeta.
    cbn [shared]. rewrite worker_body_m_range.
    replace (S n + m)%nat with (S (n + m)) in * by lia.
    rewrite worker_locals_after. cbn [firstTime].
    now apply filtered_nan_state.
Qed.

(** X8 at a concrete input: in [glitch_world] the clock answers NaN once,
    in the first measurement; the value published five turns later is
    still NaN. *)
Lemma nan_is_absorbing_witness :
  is_nan (committed worker_locals (Ranger_new glitch_world)) = true
  /\ is_nan (m_range (obj (shared (worker_turns 5 (start glitch_world))))) = true.
Proof.
  assert (Hc : is_nan (committed (wl (worker_turns 0 (start glitch_world)))
                                 (shared (worker_turns 0 (start glitch_world))))
               = true) by (vm_compute; reflexivity).
  split; [exact Hc|].
  exact (nan_is_absorbing glitch_world 0 4 (or_introl Hc)).
Defined.

(** ** The hardware protocol *)

Lemma measureRange_block (s : Sys) :
  exists b, trace (hw (snd (measureRange s))) = trace (hw s) ++ b
            /\ is_measurement b = true.
Proof.
  rewrite measureRange_trace. eexists. split; [reflexivity|].
  destruct (PrimFloat.ltb _ _), (echoAt _ _); reflexivity.
Qed.

Lemma worker_body_blocks (l : Locals) (s : Sys) :
  exists bs, trace (hw (snd (worker_body l s))) = trace (hw s) ++ concat bs
             /\ forallb is_measurement bs = true
             /\ length bs = (pulses (hw (snd (worker_body l s))) - pulses (hw s))%nat.
Proof.
  rewrite worker_body_hw.
  destruct (measureRange_block s) as (b1 & Hb1 & Hm1).
  destruct (is_outlier _ _ _).
  - destruct (measureRange_block (snd (measureRange s))) as (b2 & Hb2 & Hm2).
    exists [b1; b2]. rewrite !measureRange_pulses, Hb2, Hb1. cbn [concat forallb].
    rewrite Hm1, Hm2, app_nil_r, app_assoc. repeat split. cbn [length]. lia.
  - exists [b1]. rewrite measureRange_pulses, Hb1. cbn [concat forallb].
    rewrite Hm1, app_nil_r. repeat split. cbn [length]. lia.
Qed.

Lemma Ranger_new_trace (w : World) :
  trace (hw (Ranger_new w)) =
  trace w ++ [TriggerSetOutput true; TriggerSetState false;
              EchoSetOutput false; EchoSetEdgeTrigger Both].
Proof.
  unfold Ranger_new. st_unfold. cbn [trace hw snd].
  now rewrite <- !app_assoc.
Qed.

Lemma Ranger_new_pulses (w : World) : pulses (hw (Ranger_new w)) = pulses w.
Proof.
  unfold pulses at 1. rewrite Ranger_new_trace, pulses_app. cbn. lia.
Qed.

(** X9: what the worker does to the hardware.  After the four settings of
    the constructor, the trace of a run is a sequence of measurements and
    nothing else: each one at most one sleep, one 10 us pulse on the
    trigger, one 60 ms wait on the echo and, only after that, possibly a
    second one; there are as many of them as pulses, between [n] and [2 n]
    after [n] turns. *)
Theorem trace_is_measurements (w : World) (n : nat) :
  exists bs : list (list Event),
    trace (hw (shared (worker_turns n (start w)))) =
      trace w
      ++ [TriggerSetOutput true; TriggerSetState false;
          EchoSetOutput false; EchoSetEdgeTrigger Both]
      ++ concat bs
    /\ forallb is_measurement bs = true
    /\ (length bs + pulses w = pulses (hw (shared (worker_turns n (start w)))))%nat
    /\ (n <= length bs <= 2 * n)%nat.
Proof.
  induction n as [|n IH].
  - exists []. rewrite worker_turns_0. cbn [concat forallb length start shared].
    rewrite Ranger_new_trace, Ranger_new_pulses, app_nil_r.
    repeat split; lia.
  - destruct IH as (bs & Htr & Hall & Hlen & Hn).
    rewrite worker_turns_S by apply start_m_run. cbv zeta. cbn [shared].
    destruct (worker_body_blocks (wl (worker_turns n (start w)))
                                 (shared (worker_turns n (start w))))
      as (bs' & Htr' & Hall' & Hlen').
    pose proof (worker_body_pulses (wl (worker_turns n (start w)))
                                   (shared (worker_turns n (start w)))) as Hp.
    exists (bs ++ bs'). rewrite Htr', Htr, concat_app, forallb_app, Hall, Hall'.
    rewrite length_app, <- !app_assoc. repeat split; lia.
Qed.

(** ** The answer to a step *)

(** One step of the filter between two non-negative numbers: the new
    value is finite and on the same side of the reading as the old one. *)
Lemma filter_toward (prev c : float) :
  is_finite prev = true -> is_finite c = true ->
  (0.0 <=? prev)%float = true -> (0.0 <=? c)%float = true ->
  let new := (prev + 0.5 * (c - prev))%float in
  is_finite new = true /\ (0.0 <=? new)%float = true
  /\ ((prev <=? c)%float = true ->
      (prev <=? new)%float = true /\ (new <=? c)%float = true)
  /\ ((c <=? prev)%float = true ->
      (c <=? new)%float = true /\ (new <=? prev)%float = true).
Proof.
  intros Fp Fc Hp Hc new.
  assert (F0 : is_finite 0.0 = true) by reflexivity.
  apply leb_values in Hp, Hc; trivial.
  change (SFvalue (Prim2SF 0.0)) with 0 in Hp, Hc.
  assert (Fd : is_finite (c - prev)%float = true).
  { rewrite is_finite_spec, sub_spec.
    pose proof Fp as Fp'. pose proof Fc as Fc'.
    rewrite is_finite_spec in Fp', Fc'.
    apply (rounds_finite (SFvalue (Prim2SF c) - SFvalue (Prim2SF prev))
                         (- SFvalue (Prim2SF prev)) (SFvalue (Prim2SF c))).
    - apply SFsub_rounds; trivial; apply Prim2SF_valid.
    - apply representable_opp, representable_value; trivial. apply Prim2SF_valid.
    - apply representable_value; trivial. apply Prim2SF_valid.
    - lia. }
  destruct (filter_step_float_between prev c Fp Fc Fd) as (Ff & Hup & Hdown).
  fold new in Ff, Hup, Hdown.
  split; [exact Ff|]. split; [|split; assumption].
  apply leb_values; trivial. change (SFvalue (Prim2SF 0.0)) with 0.
  destruct (Z.le_ge_cases (SFvalue (Prim2SF prev)) (SFvalue (Prim2SF c)))
    as [Hle | Hge].
  - destruct (Hup (proj2 (leb_values prev c Fp Fc) Hle)) as [H1 _].
    apply leb_values in H1; trivial. lia.
  - destruct (Hdown (proj2 (leb_values c prev Fc Fp) ltac:(lia))) as [H1 _].
    apply leb_values in H1; trivial. lia.
Qed.

(** X10: the answer to a step has no overshoot.  Let the published value
    after [n >= 1] turns be finite and not negative, and let the next [m]
    turns all commit the same reading [c], finite and not negative.  Then
    after each of these turns the published value is finite, not negative,
    and lies between the value before the turn and [c]: it moves towards
    [c] and never passes it. *)
Theorem step_has_no_overshoot (w : World) (c : double) (n m : nat) :
  let p i := m_range (obj (shared (worker_turns i (start w)))) in
  (1 <= n)%nat ->
  is_finite c = true -> (0.0 <=? c)%float = true ->
  is_finite (p n) = true -> (0.0 <=? p n)%float = true ->
  (forall i, (n <= i < n + m)%nat ->
     committed (wl (worker_turns i (start w))) (shared (worker_turns i (start w))) = c) ->
  forall i, (n <= i < n + m)%nat ->
    is_finite (p (S i)) = true /\ (0.0 <=? p (S i))%float = true
    /\ ((p i <=? c)%float = true ->
        (p i <=? p (S i))%float = true /\ (p (S i) <=? c)%float = true)
    /\ ((c <=? p i)%float = true ->
        (c <=? p (S i))%float = true /\ (p (S i) <=? p i)%float = true).
Proof.
  cbv zeta. intros Hn Fc Hc Fp Hp Hsteady.
  assert (Hstep : forall i, (n <= i < n + m)%nat ->
            m_range (obj (shared (worker_turns (S i) (start w)))) =
            (m_range (obj (shared (worker_turns i (start w))))
             + 0.5 * (c - m_range (obj (shared (worker_turns i (start w))))))%float).
  { intros i Hi. rewrite (worker_turns_S i) by apply start_m_run. cbv zeta.
    cbn [shared]. rewrite worker_body_m_range, (Hsteady i Hi).
    destruct i as [|i]; [lia|]. now rewrite worker_locals_after. }
  assert (Hinv : forall j, (j <= m)%nat ->
            is_finite (m_range (obj (shared (worker_turns (n + j) (start w))))) = true
            /\ (0.0 <=? m_range (obj (shared (worker_turns (n + j) (start w)))))%float
               = true).
  { induction j as [|j IH]; intros Hj.
    - rewrite Nat.add_0_r. auto.
    - destruct (IH ltac:(lia)) as [Fj Hj0].
      replace (n + S j)%nat with (S (n + j)) by lia.
      rewrite (Hstep (n + j)%nat) by lia.
      destruct (filter_toward _ c Fj Fc Hj0 Hc) as (F & H0 & _). auto. }
  intros i Hi.
  destruct (Hinv (i - n)%nat ltac:(lia)) as [Fi Hi0].
  replace (n + (i - n))%nat with i in Fi, Hi0 by lia.
  rewrite (Hstep i Hi). now apply filter_toward.
Qed.

(** X10 at a concrete input: in [restarting_world] the second turn commits
    the next double after the first reading. *)
Lemma step_has_no_overshoot_witness :
  (m_range (obj (shared (worker_turns 1 (start restarting_world))))
   <=? m_range (obj (shared (worker_turns 2 (start restarting_world)))))%float = true
  /\ (m_range (obj (shared (worker_turns 2 (start restarting_world))))
      <=? 0.012500000000000002 * speedOfSound / 2.0)%float = true.
Proof.
  assert (Hc : forall i, (1 <= i < 1 + 1)%nat ->
            committed (wl (worker_turns i (start restarting_world)))
                      (shared (worker_turns i (start restarting_world)))
            = (0.012500000000000002 * speedOfSound / 2.0)%float).
  { intros i Hi. destruct i as [|[|i]]; [lia | | lia]. vm_compute. reflexivity. }
  destruct (step_has_no_overshoot restarting_world
              (0.012500000000000002 * speedOfSound / 2.0)%float 1 1 (le_n 1)
              eq_refl eq_refl) with (i := 1%nat) as (_ & _ & Hup & _).
  - vm_compute. reflexivity.
  - vm_compute. reflexivity.
  - exact Hc.
  - lia.
  - apply Hup. vm_compute. reflexivity.
Defined.
